(** * ObjectTracker: greedy IoU association with linear velocity prediction

    A shallow embedding of [services/tracker.ts] (class [ObjectTracker]) and
    the properties its specification states about it.

    Modelling conventions.
    - A JavaScript [number] holding a coordinate, a size, a score or an IoU
      is an exact rational ([Q]); numeric results are compared with [==].
      Rounding, overflow, [NaN] and the infinities of IEEE doubles are
      outside this model.
    - A [number] used as a counter or an index ([id], [nextId],
      [missingFrames], array indices) is an unbounded integer ([Z], [nat]).
    - [Set<number>] is [gset nat]; arrays are lists, read with [!!].
    - Objects are values.  The source shares one [bbox] array between a
      detection and the track that adopts it and advances that array in
      place on the next call; the caller (the detection loop) builds the
      detections of every frame afresh, so no two live tracks and no later
      input ever see the same array.  Module [Shared] models the arrays in
      a store, and [shared_run_reads_as_values] shows that under this
      discipline the runs on the store are the runs on values.
    - [Math.random] is an oracle: [rand k] is the result of the [k]-th call
      made during one [update]. *)

From Stdlib Require Import QArith Qminmax Qround Qpower Lqa ZArith.
From stdpp Require Import gmap strings list sorting.

Set Warnings "-clear-no-such-hyp".

Open Scope Q_scope.

Module Tracker.

(** ** Data model *)

(** [bbox: [number, number, number, number]], read as [x, y, width, height]. *)
Record BBox := mkBBox { bbox0 : Q; bbox1 : Q; bbox2 : Q; bbox3 : Q }.

Record DetectedObject := mkDetected {
  bbox : BBox;
  class : string;
  score : Q
}.

(** [TrackedObject extends DetectedObject]: the inherited fields are [base]. *)
Record TrackedObject := mkTracked {
  base : DetectedObject;
  id : Z;
  missingFrames : Z;
  color : option string;
  velocity : Q * Q
}.

Record ObjectTracker := mkTracker {
  nextId : Z;
  tracks : list TrackedObject;
  maxMissingFrames : Z;
  iouThreshold : Q
}.

(** [constructor(maxMissingFrames = 30, iouThreshold = 0.25)] *)
Definition new (maxMissing : Z) (threshold : Q) : ObjectTracker :=
  {| nextId := 1; tracks := []; maxMissingFrames := maxMissing;
     iouThreshold := threshold |}.

Definition new_default : ObjectTracker := new 30 0.25.

(** [matches.push({ trackIdx, detIdx, iou })] *)
Record Match := mkMatch { trackIdx : nat; detIdx : nat; iou : Q }.

(** ** [Array.prototype.forEach] as a fold that threads the mutated locals *)

Fixpoint forEach_from {A St : Type} (i : nat) (f : A → nat → St → St)
  (l : list A) (s : St) : St :=
  match l with
  | [] => s
  | x :: l' => forEach_from (S i) f l' (f x i s)
  end.

Definition forEach {A St : Type} (f : A → nat → St → St) (l : list A) (s : St) : St :=
  forEach_from 0 f l s.

(** ** [calculateIoU] *)

Definition area (b : BBox) : Q := bbox2 b * bbox3 b.

Definition x1 (b1 b2 : BBox) : Q := Qmax (bbox0 b1) (bbox0 b2).
Definition y1 (b1 b2 : BBox) : Q := Qmax (bbox1 b1) (bbox1 b2).
Definition x2 (b1 b2 : BBox) : Q := Qmin (bbox0 b1 + bbox2 b1) (bbox0 b2 + bbox2 b2).
Definition y2 (b1 b2 : BBox) : Q := Qmin (bbox1 b1 + bbox3 b1) (bbox1 b2 + bbox3 b2).

Definition intersectionArea (b1 b2 : BBox) : Q :=
  (x2 b1 b2 - x1 b1 b2) * (y2 b1 b2 - y1 b1 b2).

Definition unionArea (b1 b2 : BBox) : Q :=
  area b1 + area b2 - intersectionArea b1 b2.

(** [u || 1] on a number: [1] when [u] is zero, [u] otherwise. *)
Definition or_1 (u : Q) : Q := if Qeq_bool u 0 then 1 else u.

(** The overlap test [x2 <= x1 || y2 <= y1]. *)
Definition no_intersection (b1 b2 : BBox) : bool :=
  Qle_bool (x2 b1 b2) (x1 b1 b2) || Qle_bool (y2 b1 b2) (y1 b1 b2).

Definition divisor (b1 b2 : BBox) : Q := or_1 (unionArea b1 b2).

Definition calculateIoU (b1 b2 : BBox) : Q :=
  if no_intersection b1 b2 then 0
  else intersectionArea b1 b2 / divisor b1 b2.


(** ** [getRandomColor] *)

Definition colors : list string :=
  ["#00f0ff"; "#ff2a6d"; "#05d5fa"; "#39ff14"; "#ffe600"; "#bd00ff"]%string.

(** [colors[Math.floor(r * colors.length)]] for [r] the value drawn from
    [Math.random]; an index outside the palette reads [undefined]. *)
Definition getRandomColor (r : Q) : option string :=
  let i := Qfloor (r * inject_Z (Z.of_nat (length colors))) in
  if (i <? 0)%Z then None else colors !! Z.to_nat i.

(** ** [update] *)

Definition set_bbox (track : TrackedObject) (b : BBox) : TrackedObject :=
  {| base := {| bbox := b; class := class (base track); score := score (base track) |};
     id := id track; missingFrames := missingFrames track;
     color := color track; velocity := velocity track |}.

(** Step 1: [track.bbox[0] += track.velocity[0]; track.bbox[1] += track.velocity[1]]. *)
Definition predict (track : TrackedObject) : TrackedObject :=
  let b := bbox (base track) in
  set_bbox track
    {| bbox0 := bbox0 b + fst (velocity track);
       bbox1 := bbox1 b + snd (velocity track);
       bbox2 := bbox2 b; bbox3 := bbox3 b |}.

(** Step 2: the nested [forEach] that fills [matches]. *)
Definition score_pair (threshold : Q) (track : TrackedObject) (tIdx : nat)
  (det : DetectedObject) (dIdx : nat) (matches : list Match) : list Match :=
  let iou := calculateIoU (bbox (base track)) (bbox det) in
  if Qle_bool threshold iou
  then matches ++ [{| trackIdx := tIdx; detIdx := dIdx; iou := iou |}]
  else matches.

Definition score_pairs (threshold : Q) (ts : list TrackedObject)
  (detections : list DetectedObject) : list Match :=
  forEach (λ track tIdx, forEach (score_pair threshold track tIdx) detections) ts [].

(** [matches.sort((a, b) => b.iou - a.iou)]: the comparator is a total
    preorder on exact numbers, and [Array.prototype.sort] is stable, so the
    result is the stable sort by descending [iou]. *)
Fixpoint insert_match (a : Match) (sorted : list Match) : list Match :=
  match sorted with
  | [] => [a]
  | b :: rest =>
      if Qle_bool (iou b) (iou a) then a :: b :: rest
      else b :: insert_match a rest
  end.

Definition sort_matches (matches : list Match) : list Match :=
  foldr insert_match [] matches.

(** Step 3: the body of the loop over an accepted pair. *)
Definition apply_match (track : TrackedObject) (det : DetectedObject) : TrackedObject :=
  let prevX := bbox0 (bbox (base track)) - fst (velocity track) in
  let prevY := bbox1 (bbox (base track)) - snd (velocity track) in
  let measuredVx := bbox0 (bbox det) - prevX in
  let measuredVy := bbox1 (bbox det) - prevY in
  let alpha := 0.5 in
  {| base := {| bbox := bbox det; class := class det; score := score det |};
     id := id track;
     missingFrames := 0;
     color := color track;
     velocity := (fst (velocity track) * (1 - alpha) + measuredVx * alpha,
                  snd (velocity track) * (1 - alpha) + measuredVy * alpha) |}.

(** The locals mutated by the loop [for (const match of matches)]. *)
Record Assoc := mkAssoc {
  activeTracks : list TrackedObject;
  assignedTrackIndices : gset nat;
  assignedDetIndices : gset nat
}.

Definition consumed (m : Match) (aT aD : gset nat) : bool :=
  bool_decide (trackIdx m ∈ aT) || bool_decide (detIdx m ∈ aD).

(** One iteration.  Both array reads succeed for every pair produced by
    [score_pairs] (lemma [score_pairs_spec]); the last branch is never
    taken. *)
Definition assoc_step (ts : list TrackedObject) (detections : list DetectedObject)
  (s : Assoc) (m : Match) : Assoc :=
  if consumed m (assignedTrackIndices s) (assignedDetIndices s) then s
  else
    match ts !! trackIdx m, detections !! detIdx m with
    | Some track, Some det =>
        {| activeTracks := activeTracks s ++ [apply_match track det];
           assignedTrackIndices := {[trackIdx m]} ∪ assignedTrackIndices s;
           assignedDetIndices := {[detIdx m]} ∪ assignedDetIndices s |}
    | _, _ => s
    end.

Definition associate (ts : list TrackedObject) (detections : list DetectedObject)
  (matches : list Match) : Assoc :=
  foldl (assoc_step ts detections) (mkAssoc [] ∅ ∅) matches.

(** Step 4: [track.missingFrames++] and the test that keeps the track. *)
Definition miss (track : TrackedObject) : TrackedObject :=
  {| base := base track; id := id track;
     missingFrames := missingFrames track + 1;
     color := color track; velocity := velocity track |}.

Definition age_step (maxMissing : Z) (assigned : gset nat)
  (track : TrackedObject) (index : nat) (active : list TrackedObject)
  : list TrackedObject :=
  if bool_decide (index ∈ assigned) then active
  else
    let track' := miss track in
    if (missingFrames track' <? maxMissing)%Z then active ++ [track']
    else active.

(** Step 5: the locals of the spawning loop are [activeTracks], [nextId]
    and the number of [Math.random] calls made so far. *)
Record Spawn := mkSpawn {
  sp_active : list TrackedObject;
  sp_nextId : Z;
  sp_draws : nat
}.

Definition spawn_step (rand : nat → Q) (assigned : gset nat)
  (det : DetectedObject) (index : nat) (s : Spawn) : Spawn :=
  if bool_decide (index ∈ assigned) then s
  else
    let newTrack :=
      {| base := det;
         id := sp_nextId s;
         missingFrames := 0;
         color := getRandomColor (rand (sp_draws s));
         velocity := (0, 0) |} in
    {| sp_active := sp_active s ++ [newTrack];
       sp_nextId := (sp_nextId s + 1)%Z;
       sp_draws := S (sp_draws s) |}.

Definition update (rand : nat → Q) (this : ObjectTracker)
  (detections : list DetectedObject) : ObjectTracker :=
  let ts := map predict (tracks this) in
  let matches := sort_matches (score_pairs (iouThreshold this) ts detections) in
  let a := associate ts detections matches in
  let active :=
    forEach (age_step (maxMissingFrames this) (assignedTrackIndices a)) ts
      (activeTracks a) in
  let s :=
    forEach (spawn_step rand (assignedDetIndices a)) detections
      (mkSpawn active (nextId this) 0) in
  {| nextId := sp_nextId s; tracks := sp_active s;
     maxMissingFrames := maxMissingFrames this;
     iouThreshold := iouThreshold this |}.

(** [update] returns [this.tracks]. *)
Definition returned (this : ObjectTracker) : list TrackedObject := tracks this.

(** [reset] *)
Definition reset (this : ObjectTracker) : ObjectTracker :=
  {| nextId := 1; tracks := [];
     maxMissingFrames := maxMissingFrames this;
     iouThreshold := iouThreshold this |}.

End Tracker.

Import Tracker.

(** * Notions used to state the properties *)

(** Two boxes with the same four numbers. *)
Definition same_box (a b : BBox) : Prop :=
  bbox0 a == bbox0 b ∧ bbox1 a == bbox1 b ∧ bbox2 a == bbox2 b ∧ bbox3 a == bbox3 b.




(** ** The three groups of the returned list *)

(** The pairs for which the association loop does not [continue], in the
    order in which it accepts them, starting from the index sets [aT], [aD]. *)
Fixpoint greedy (aT aD : gset nat) (matches : list Match) : list Match :=
  match matches with
  | [] => []
  | m :: rest =>
      if consumed m aT aD then greedy aT aD rest
      else m :: greedy ({[trackIdx m]} ∪ aT) ({[detIdx m]} ∪ aD) rest
  end.

(** The predicted tracks, the sorted candidate pairs and the accepted pairs
    of one [update] call. *)
Definition predicted (this : ObjectTracker) : list TrackedObject :=
  map predict (tracks this).

Definition candidates (this : ObjectTracker) (detections : list DetectedObject)
  : list Match :=
  sort_matches (score_pairs (iouThreshold this) (predicted this) detections).

Definition accepted (this : ObjectTracker) (detections : list DetectedObject)
  : list Match :=
  greedy ∅ ∅ (candidates this detections).

Definition track_indices (ms : list Match) : gset nat := list_to_set (trackIdx <$> ms).
Definition det_indices (ms : list Match) : gset nat := list_to_set (detIdx <$> ms).

(** The track pushed for an accepted pair. *)
Definition matched_track (ts : list TrackedObject) (detections : list DetectedObject)
  (m : Match) : option TrackedObject :=
  track ← ts !! trackIdx m;
  det ← detections !! detIdx m;
  Some (apply_match track det).

(** The tracks pushed by step 4 for the tracks at indices [i], [i+1], ... *)
Fixpoint aged_from (maxMissing : Z) (assigned : gset nat) (i : nat)
  (ts : list TrackedObject) : list TrackedObject :=
  match ts with
  | [] => []
  | track :: rest =>
      age_step maxMissing assigned track i [] ++ aged_from maxMissing assigned (S i) rest
  end.

(** The tracks pushed by step 5 for the detections at indices [i], [i+1],
    ..., the first of them taking the id [next] and the draw [draws]. *)
Fixpoint spawned_from (rand : nat → Q) (assigned : gset nat) (i : nat)
  (detections : list DetectedObject) (next : Z) (draws : nat) : list TrackedObject :=
  match detections with
  | [] => []
  | det :: rest =>
      if bool_decide (i ∈ assigned) then spawned_from rand assigned (S i) rest next draws
      else
        {| base := det; id := next; missingFrames := 0;
           color := getRandomColor (rand draws); velocity := (0, 0) |}
        :: spawned_from rand assigned (S i) rest (next + 1)%Z (S draws)
  end.

(** A pair whose two indices are within the arrays. *)
Definition in_range (ts : list TrackedObject) (detections : list DetectedObject)
  (m : Match) : Prop :=
  (trackIdx m < length ts)%nat ∧ (detIdx m < length detections)%nat.

(** A candidate pair as step 2 builds it: its indices denote a predicted
    track and a detection, [iou] is their IoU, and it reaches the threshold. *)
Definition scored (threshold : Q) (ts : list TrackedObject)
  (detections : list DetectedObject) (m : Match) : Prop :=
  ∃ track det,
    ts !! trackIdx m = Some track ∧ detections !! detIdx m = Some det
    ∧ iou m = calculateIoU (bbox (base track)) (bbox det)
    ∧ threshold <= iou m.

(** The order produced by the comparator [(a, b) => b.iou - a.iou]. *)
Definition iou_desc (a b : Match) : Prop := iou b <= iou a.

(** The three groups pushed to [activeTracks] by one [update] call. *)
Definition matched (this : ObjectTracker) (detections : list DetectedObject)
  : list TrackedObject :=
  omap (matched_track (predicted this) detections) (accepted this detections).

Definition aged (this : ObjectTracker) (detections : list DetectedObject)
  : list TrackedObject :=
  aged_from (maxMissingFrames this) (track_indices (accepted this detections)) 0
    (predicted this).

Definition spawned (rand : nat → Q) (this : ObjectTracker)
  (detections : list DetectedObject) : list TrackedObject :=
  spawned_from rand (det_indices (accepted this detections)) 0 detections
    (nextId this) 0.

(** ** Identities *)

(** The ids of the live tracks are distinct, positive and below the counter. *)
Definition ids (ts : list TrackedObject) : list Z := id <$> ts.

Definition wf (this : ObjectTracker) : Prop :=
  (0 < nextId this)%Z
  ∧ NoDup (ids (tracks this))
  ∧ Forall (λ i, (0 < i < nextId this)%Z) (ids (tracks this)).

(** The ids of the tracks matched in one call; a live track whose id is not
    among them goes unmatched in that call. *)
Definition matched_ids (this : ObjectTracker) (detections : list DetectedObject)
  : list Z :=
  ids (matched this detections).

(** ** Runs *)

(** One call of [update]: the values [Math.random] returns during the call
    and the detections passed. *)
Definition Frame : Type := (nat → Q) * list DetectedObject.

Definition run (this : ObjectTracker) (frames : list Frame) : ObjectTracker :=
  foldl (λ this f, update f.1 this f.2) this frames.

(** The track with id [i] is matched in none of the calls [frames]. *)
Fixpoint unmatched_run (i : Z) (this : ObjectTracker) (frames : list Frame) : Prop :=
  match frames with
  | [] => True
  | f :: rest =>
      (i ∉ matched_ids this f.2) ∧ unmatched_run i (update f.1 this f.2) rest
  end.

(** No returned track has id [i]. *)
Definition absent (i : Z) (this : ObjectTracker) : Prop := i ∉ ids (tracks this).

(** The public operations. *)
Inductive Call :=
  | Update (rand : nat → Q) (detections : list DetectedObject)
  | Reset.

Definition call (this : ObjectTracker) (c : Call) : ObjectTracker :=
  match c with
  | Update rand detections => update rand this detections
  | Reset => reset this
  end.

Definition calls (this : ObjectTracker) (cs : list Call) : ObjectTracker :=
  foldl call this cs.

(** The ids handed out by one call, in the order in which it assigns them. *)
Definition assigned (this : ObjectTracker) (c : Call) : list Z :=
  match c with
  | Update rand detections => ids (spawned rand this detections)
  | Reset => []
  end.

(** All ids handed out by a sequence of calls. *)
Fixpoint assigned_ever (this : ObjectTracker) (cs : list Call) : list Z :=
  match cs with
  | [] => []
  | c :: rest => assigned this c ++ assigned_ever (call this c) rest
  end.

(** The ids handed out since the last [reset] (since [earlier] if there is
    none). *)
Fixpoint assigned_since_reset (earlier : list Z) (this : ObjectTracker)
  (cs : list Call) : list Z :=
  match cs with
  | [] => earlier
  | Reset :: rest => assigned_since_reset [] (reset this) rest
  | c :: rest => assigned_since_reset (earlier ++ assigned this c) (call this c) rest
  end.

(** What a caller can observe of a track besides its display colour. *)
Definition observable (track : TrackedObject)
  : Z * BBox * string * Q * (Q * Q) * Z :=
  (id track, bbox (base track), class (base track), score (base track),
   velocity track, missingFrames track).

Definition observed (ts : list TrackedObject)
  : list (Z * BBox * string * Q * (Q * Q) * Z) :=
  observable <$> ts.

(** The lists returned by successive [update] calls on [frames], the [n]-th
    call drawing its random numbers from [rand n]. *)
Fixpoint outputs (rand : nat → nat → Q) (n : nat) (this : ObjectTracker)
  (frames : list (list DetectedObject)) : list (list TrackedObject) :=
  match frames with
  | [] => []
  | detections :: rest =>
      let this' := update (rand n) this detections in
      returned this' :: outputs rand (S n) this' rest
  end.

(** A track and a tracker with the display colours blanked. *)
Definition uncolor (track : TrackedObject) : TrackedObject :=
  {| base := base track; id := id track; missingFrames := missingFrames track;
     color := None; velocity := velocity track |}.

Definition strip (this : ObjectTracker) : ObjectTracker :=
  {| nextId := nextId this; tracks := uncolor <$> tracks this;
     maxMissingFrames := maxMissingFrames this;
     iouThreshold := iouThreshold this |}.

(** ** The same operations on shared [bbox] arrays

    The source never copies a [bbox] array: [{...det}] and
    [track.bbox = det.bbox] hand the array of the detection to the track,
    and step 1 of the next call writes into it.  Here the arrays live in a
    store and the [bbox] fields are addresses into it.  Track objects and
    [velocity] arrays are created by the tracker for one track each and stay
    values. *)

Module Shared.

Record DetectedObject := mkDetected {
  bbox : nat;
  class : string;
  score : Q
}.

Record TrackedObject := mkTracked {
  base : DetectedObject;
  id : Z;
  missingFrames : Z;
  color : option string;
  velocity : Q * Q
}.

Record ObjectTracker := mkTracker {
  nextId : Z;
  tracks : list TrackedObject;
  maxMissingFrames : Z;
  iouThreshold : Q
}.

(** Reading an array; every address held by an object is allocated. *)
Definition array (h : gmap nat BBox) (l : nat) : BBox :=
  default (mkBBox 0 0 0 0) (h !! l).

(** Step 1 writes into the array the track points to. *)
Definition predict (track : TrackedObject) (h : gmap nat BBox) : gmap nat BBox :=
  let b := array h (bbox (base track)) in
  <[bbox (base track) :=
      {| bbox0 := bbox0 b + fst (velocity track);
         bbox1 := bbox1 b + snd (velocity track);
         bbox2 := bbox2 b; bbox3 := bbox3 b |}]> h.

Definition score_pair (h : gmap nat BBox) (threshold : Q) (track : TrackedObject)
  (tIdx : nat) (det : DetectedObject) (dIdx : nat) (matches : list Match)
  : list Match :=
  let iou := calculateIoU (array h (bbox (base track))) (array h (bbox det)) in
  if Qle_bool threshold iou
  then matches ++ [{| trackIdx := tIdx; detIdx := dIdx; iou := iou |}]
  else matches.

Definition score_pairs (h : gmap nat BBox) (threshold : Q)
  (ts : list TrackedObject) (detections : list DetectedObject) : list Match :=
  forEach (λ track tIdx, forEach (score_pair h threshold track tIdx) detections) ts [].

(** Step 3 reads both arrays and then makes the track point to the array of
    the detection. *)
Definition apply_match (h : gmap nat BBox) (track : TrackedObject)
  (det : DetectedObject) : TrackedObject :=
  let prevX := bbox0 (array h (bbox (base track))) - fst (velocity track) in
  let prevY := bbox1 (array h (bbox (base track))) - snd (velocity track) in
  let measuredVx := bbox0 (array h (bbox det)) - prevX in
  let measuredVy := bbox1 (array h (bbox det)) - prevY in
  let alpha := 0.5 in
  {| base := {| bbox := bbox det; class := class det; score := score det |};
     id := id track;
     missingFrames := 0;
     color := color track;
     velocity := (fst (velocity track) * (1 - alpha) + measuredVx * alpha,
                  snd (velocity track) * (1 - alpha) + measuredVy * alpha) |}.

Record Assoc := mkAssoc {
  activeTracks : list TrackedObject;
  assignedTrackIndices : gset nat;
  assignedDetIndices : gset nat
}.

Definition assoc_step (h : gmap nat BBox) (ts : list TrackedObject)
  (detections : list DetectedObject) (s : Assoc) (m : Match) : Assoc :=
  if consumed m (assignedTrackIndices s) (assignedDetIndices s) then s
  else
    match ts !! trackIdx m, detections !! detIdx m with
    | Some track, Some det =>
        {| activeTracks := activeTracks s ++ [apply_match h track det];
           assignedTrackIndices := {[trackIdx m]} ∪ assignedTrackIndices s;
           assignedDetIndices := {[detIdx m]} ∪ assignedDetIndices s |}
    | _, _ => s
    end.

Definition associate (h : gmap nat BBox) (ts : list TrackedObject)
  (detections : list DetectedObject) (matches : list Match) : Assoc :=
  foldl (assoc_step h ts detections) (mkAssoc [] ∅ ∅) matches.

Definition miss (track : TrackedObject) : TrackedObject :=
  {| base := base track; id := id track;
     missingFrames := missingFrames track + 1;
     color := color track; velocity := velocity track |}.

Definition age_step (maxMissing : Z) (assigned : gset nat)
  (track : TrackedObject) (index : nat) (active : list TrackedObject)
  : list TrackedObject :=
  if bool_decide (index ∈ assigned) then active
  else
    let track' := miss track in
    if (missingFrames track' <? maxMissing)%Z then active ++ [track']
    else active.

Record Spawn := mkSpawn {
  sp_active : list TrackedObject;
  sp_nextId : Z;
  sp_draws : nat
}.

Definition spawn_step (rand : nat → Q) (assigned : gset nat)
  (det : DetectedObject) (index : nat) (s : Spawn) : Spawn :=
  if bool_decide (index ∈ assigned) then s
  else
    let newTrack :=
      {| base := det;
         id := sp_nextId s;
         missingFrames := 0;
         color := getRandomColor (rand (sp_draws s));
         velocity := (0, 0) |} in
    {| sp_active := sp_active s ++ [newTrack];
       sp_nextId := (sp_nextId s + 1)%Z;
       sp_draws := S (sp_draws s) |}.

(** [update] returns the new tracker state and the store it leaves. *)
Definition update (rand : nat → Q) (this : ObjectTracker) (h : gmap nat BBox)
  (detections : list DetectedObject) : ObjectTracker * gmap nat BBox :=
  let h' := forEach (λ track _, predict track) (tracks this) h in
  let ts := tracks this in
  let matches := sort_matches (score_pairs h' (iouThreshold this) ts detections) in
  let a := associate h' ts detections matches in
  let active :=
    forEach (age_step (maxMissingFrames this) (assignedTrackIndices a)) ts
      (activeTracks a) in
  let s :=
    forEach (spawn_step rand (assignedDetIndices a)) detections
      (mkSpawn active (nextId this) 0) in
  ({| nextId := sp_nextId s; tracks := sp_active s;
      maxMissingFrames := maxMissingFrames this;
      iouThreshold := iouThreshold this |}, h').

(** What the objects hold when their arrays are read from the store. *)
Definition read_detected (h : gmap nat BBox) (det : DetectedObject)
  : Tracker.DetectedObject :=
  {| Tracker.bbox := array h (bbox det);
     Tracker.class := class det; Tracker.score := score det |}.

Definition read_tracked (h : gmap nat BBox) (track : TrackedObject)
  : Tracker.TrackedObject :=
  {| Tracker.base := read_detected h (base track);
     Tracker.id := id track; Tracker.missingFrames := missingFrames track;
     Tracker.color := color track; Tracker.velocity := velocity track |}.

Definition read (h : gmap nat BBox) (this : ObjectTracker) : Tracker.ObjectTracker :=
  {| Tracker.nextId := nextId this;
     Tracker.tracks := read_tracked h <$> tracks this;
     Tracker.maxMissingFrames := maxMissingFrames this;
     Tracker.iouThreshold := iouThreshold this |}.

Definition read_assoc (h : gmap nat BBox) (s : Assoc) : Tracker.Assoc :=
  {| Tracker.activeTracks := read_tracked h <$> activeTracks s;
     Tracker.assignedTrackIndices := assignedTrackIndices s;
     Tracker.assignedDetIndices := assignedDetIndices s |}.

Definition read_spawn (h : gmap nat BBox) (s : Spawn) : Tracker.Spawn :=
  {| Tracker.sp_active := read_tracked h <$> sp_active s;
     Tracker.sp_nextId := sp_nextId s;
     Tracker.sp_draws := sp_draws s |}.

(** The addresses held by tracks and by detections. *)
Definition track_arrays (ts : list TrackedObject) : list nat := (bbox ∘ base) <$> ts.
Definition detection_arrays (detections : list DetectedObject) : list nat :=
  bbox <$> detections.

(** No array is shared: the live tracks and the incoming detections point
    to pairwise distinct arrays. *)
Definition unshared (this : ObjectTracker) (detections : list DetectedObject) : Prop :=
  NoDup (track_arrays (tracks this) ++ detection_arrays detections).

(** A caller that builds the detections of a frame afresh: every box is
    written to a newly allocated array. *)
Fixpoint fresh_detections (detections : list Tracker.DetectedObject)
  (h : gmap nat BBox) : list DetectedObject * gmap nat BBox :=
  match detections with
  | [] => ([], h)
  | det :: rest =>
      let l := fresh (dom h) in
      let r := fresh_detections rest (<[l := Tracker.bbox det]> h) in
      ({| bbox := l; class := Tracker.class det; score := Tracker.score det |}
         :: r.1, r.2)
  end.

Fixpoint run (this : ObjectTracker) (h : gmap nat BBox) (frames : list Frame)
  : ObjectTracker * gmap nat BBox :=
  match frames with
  | [] => (this, h)
  | f :: rest =>
      let d := fresh_detections f.2 h in
      let r := update f.1 this d.2 d.1 in
      run r.1 r.2 rest
  end.

(** Every array a live track points to is allocated, and no two live
    tracks point to the same array. *)
Definition owned (this : ObjectTracker) (h : gmap nat BBox) : Prop :=
  NoDup (track_arrays (tracks this))
  ∧ ∀ l, l ∈ track_arrays (tracks this) → l ∈ dom h.

End Shared.

(** ** Example inputs *)

Definition example_rand : nat → Q := λ _, 0.3.

Definition example_det1 : DetectedObject :=
  {| bbox := mkBBox 10 10 20 20; class := "person"; score := 0.9 |}.

Definition example_det2 : DetectedObject :=
  {| bbox := mkBBox 15 10 20 20; class := "person"; score := 0.8 |}.

(** A tracker with limit 2 after its first frame, holding one track. *)
Definition example_tracker : ObjectTracker :=
  update example_rand (new 2 0.25) [example_det1].

Definition example_track : TrackedObject :=
  {| base := example_det1; id := 1; missingFrames := 0;
     color := getRandomColor (example_rand 0); velocity := (0, 0) |}.

(** The same tracker after one further frame without detections, and its
    track, now one frame old. *)
Definition example_aged : ObjectTracker := update example_rand example_tracker [].

Definition example_aged_track : TrackedObject := miss (predict example_track).

Definition example_flat : BBox := mkBBox 3 3 0 5.

(** The pair accepted when [example_tracker] is shown [example_det2]. *)
Definition example_match : Match :=
  {| trackIdx := 0; detIdx := 0;
     iou := calculateIoU (bbox example_det1) (bbox example_det2) |}.

(** A caller that keeps one detection object and passes it twice. *)
Definition example_store : gmap nat BBox :=
  {[ 0%nat := mkBBox 10 10 20 20; 1%nat := mkBBox 15 10 20 20 ]}.

Definition example_kept : Shared.DetectedObject :=
  {| Shared.bbox := 1; Shared.class := "person"; Shared.score := 0.8 |}.

Definition example_shared : Shared.ObjectTracker * gmap nat BBox :=
  let first :=
    {| Shared.bbox := 0; Shared.class := "person"; Shared.score := 0.9 |} in
  let r1 := Shared.update example_rand
              {| Shared.nextId := 1; Shared.tracks := [];
                 Shared.maxMissingFrames := 30; Shared.iouThreshold := 0.25 |}
              example_store [first] in
  Shared.update example_rand r1.1 r1.2 [example_kept].

(** A run that resets between two frames. *)
Definition example_calls : list Call :=
  [Update example_rand [example_det1]; Reset; Update example_rand [example_det1]].


(** ** Further notions *)


(** Every value drawn from [Math.random] lies in the interval [0, 1). *)
Definition unit_interval (rand : nat → Q) : Prop := ∀ k, 0 <= rand k ∧ rand k < 1.

(** The staleness counter of a live track: never negative, and below the
    limit whenever it is not zero. *)
Definition fresh_enough (maxMissing : Z) (track : TrackedObject) : Prop :=
  (0 ≤ missingFrames track)%Z
  ∧ (missingFrames track = 0 ∨ missingFrames track < maxMissing)%Z.

(** The random numbers of every [update] of a sequence of calls lie in
    [0, 1). *)
Definition draws_in_unit_interval (cs : list Call) : Prop :=
  Forall (λ c, match c with
               | Update rand _ => unit_interval rand
               | Reset => True
               end) cs.

(** The track has one of the six colours of the palette. *)
Definition painted (track : TrackedObject) : Prop :=
  ∃ c, color track = Some c ∧ c ∈ colors.

(** A box with no interior: its width or its height is not positive. *)
Definition flat (b : BBox) : Prop := ¬ (0 < bbox2 b ∧ 0 < bbox3 b).

(** A tracker that holds one flat track, and a flat detection. *)
Definition example_flat_det : DetectedObject :=
  {| bbox := example_flat; class := "person"; score := 0.5 |}.

Definition example_flat_tracker : ObjectTracker :=
  update example_rand (new 2 0.25) [example_flat_det].





(** ** Following one object *)





(** ** The dashboard that drives the tracker

    The pure parts of the component [ObjectDetectionSystem]: the class
    filter, the list of visible objects, the class list sent for analysis
    and the frame-rate display. *)

Module Dashboard.

(** [prev.includes(cls) ? prev.filter(c => c !== cls) : [...prev, cls]] *)
Definition toggleFilter (prev : list string) (cls : string) : list string :=
  if bool_decide (cls ∈ prev) then filter (λ c, c ≠ cls) prev
  else prev ++ [cls].

(** The filter state after a series of clicks, starting from [useState([])]. *)
Definition clicked (clicks : list string) : list string :=
  foldl toggleFilter [] clicks.

(** [activeFilters.length > 0
      ? trackedObjects.filter(obj => activeFilters.includes(obj.class))
      : trackedObjects] *)
Definition visibleObjects (activeFilters : list string)
  (trackedObjects : list TrackedObject) : list TrackedObject :=
  if (0 <? length activeFilters)%nat
  then filter (λ obj, class (base obj) ∈ activeFilters) trackedObjects
  else trackedObjects.

(** [setObjectCount(visibleObjects.length)] *)
Definition objectCount (activeFilters : list string)
  (trackedObjects : list TrackedObject) : nat :=
  length (visibleObjects activeFilters trackedObjects).








End Dashboard.

(** The order in which step 2 pushes the pairs: by track index, then by
    detection index. *)
Definition pushed_before (a b : Match) : Prop :=
  (trackIdx a < trackIdx b)%nat
  ∨ (trackIdx a = trackIdx b ∧ (detIdx a < detIdx b)%nat).

(** The order of the sorted walk: by descending IoU, pairs of equal IoU in
    the order they were pushed. *)
Definition walk_order (a b : Match) : Prop :=
  iou b < iou a ∨ (iou a == iou b ∧ pushed_before a b).

(** * Intersection over union *)

Section IoU.

Implicit Types a b : BBox.

Lemma Qle_bool_false (p q : Q) : Qle_bool p q = false → q < p.
Proof.
  intros H. apply Qnot_le_lt. intros Hle. apply Qle_bool_iff in Hle. congruence.
Qed.



(** Replace every [Qmax]/[Qmin] of the corner computation by a variable
    constrained by the two cases of its definition. *)
Ltac minmax :=
  unfold x1, y1, x2, y2 in *;
  repeat match goal with
  | |- context [Qmax ?p ?q] =>
      let H := fresh in let m := fresh "m" in
      destruct (Q.max_spec p q) as [[? H]|[? H]];
      revert H; generalize (Qmax p q); intros m H
  | |- context [Qmin ?p ?q] =>
      let H := fresh in let m := fresh "m" in
      destruct (Q.min_spec p q) as [[? H]|[? H]];
      revert H; generalize (Qmin p q); intros m H
  end.

Lemma overlap_inv a b :
  no_intersection a b = false → x1 a b < x2 a b ∧ y1 a b < y2 a b.
Proof.
  unfold no_intersection. intros H. apply orb_false_iff in H as [Hx Hy].
  split; by apply Qle_bool_false.
Qed.



(** The sides of the intersection are no longer than the sides of either box. *)
Lemma width_bounds a b :
  x2 a b - x1 a b <= bbox2 a ∧ x2 a b - x1 a b <= bbox2 b.
Proof. minmax; lra. Qed.

Lemma height_bounds a b :
  y2 a b - y1 a b <= bbox3 a ∧ y2 a b - y1 a b <= bbox3 b.
Proof. minmax; lra. Qed.

Lemma intersection_bounds a b :
  no_intersection a b = false →
  0 < intersectionArea a b
  ∧ intersectionArea a b <= area a ∧ intersectionArea a b <= area b.
Proof.
  intros H. apply overlap_inv in H as [Hx Hy].
  destruct (width_bounds a b) as [Hwa Hwb].
  destruct (height_bounds a b) as [Hha Hhb].
  unfold intersectionArea, area.
  set (w := x2 a b - x1 a b) in *. set (h := y2 a b - y1 a b) in *.
  assert (0 < w) by (unfold w; lra). assert (0 < h) by (unfold h; lra).
  repeat split; nra.
Qed.





Lemma calculateIoU_no_overlap a b :
  no_intersection a b = true → calculateIoU a b = 0.
Proof. intros H. unfold calculateIoU. by rewrite H. Qed.









End IoU.

(** * The loops of [update] *)

Section Loops.

Lemma forEach_from_ext {A St} (f g : A → nat → St → St) l i s :
  (∀ x j s', f x j s' = g x j s') → forEach_from i f l s = forEach_from i g l s.
Proof.
  intros Hfg. revert i s. induction l as [|x l IH]; intros i s; simpl; [done|].
  by rewrite Hfg, IH.
Qed.

Lemma forEach_from_fmap {A B St} (g : A → B) (f : B → nat → St → St) l i s :
  forEach_from i f (g <$> l) s = forEach_from i (λ x, f (g x)) l s.
Proof. revert i s. induction l as [|x l IH]; intros i s; simpl; [done | apply IH]. Qed.

(** A loop that preserves an invariant establishes it at exit. *)
Lemma forEach_from_invariant {A St} (P : nat → St → Prop)
  (f : A → nat → St → St) l i s :
  P i s →
  (∀ j x s', l !! j = Some x → P (i + j)%nat s' → P (S (i + j)) (f x (i + j)%nat s')) →
  P (i + length l)%nat (forEach_from i f l s).
Proof.
  revert i s. induction l as [|x l IH]; intros i s Hs Hstep; simpl.
  - by rewrite Nat.add_0_r.
  - replace (i + S (length l))%nat with (S i + length l)%nat by lia.
    apply IH.
    + specialize (Hstep 0%nat x s eq_refl). rewrite Nat.add_0_r in Hstep. auto.
    + intros j y s' Hj Hp.
      replace (S i + j)%nat with (i + S j)%nat in * by lia.
      by apply Hstep.
Qed.

Lemma age_step_push maxMissing assigned track i active :
  age_step maxMissing assigned track i active
  = active ++ age_step maxMissing assigned track i [].
Proof.
  unfold age_step. repeat case_match; simpl; by rewrite ?app_nil_r.
Qed.

Lemma forEach_age maxMissing assigned ts i active :
  forEach_from i (age_step maxMissing assigned) ts active
  = active ++ aged_from maxMissing assigned i ts.
Proof.
  revert i active. induction ts as [|t ts IH]; intros i active; simpl.
  - by rewrite app_nil_r.
  - rewrite IH, (age_step_push _ _ _ _ active). by rewrite <- app_assoc.
Qed.

Lemma forEach_spawn rand assigned dets i s :
  forEach_from i (spawn_step rand assigned) dets s
  = let new := spawned_from rand assigned i dets (sp_nextId s) (sp_draws s) in
    {| sp_active := sp_active s ++ new;
       sp_nextId := sp_nextId s + Z.of_nat (length new);
       sp_draws := sp_draws s + length new |}.
Proof.
  revert i s. induction dets as [|d dets IH]; intros i s; simpl.
  - destruct s; simpl. rewrite app_nil_r, Z.add_0_r, Nat.add_0_r. done.
  - rewrite IH. unfold spawn_step. destruct (bool_decide (i ∈ assigned)); simpl; [done|].
    rewrite <- app_assoc. simpl. f_equal; lia.
Qed.

Lemma track_indices_cons m ms : track_indices (m :: ms) = {[trackIdx m]} ∪ track_indices ms.
Proof. done. Qed.

Lemma det_indices_cons m ms : det_indices (m :: ms) = {[detIdx m]} ∪ det_indices ms.
Proof. done. Qed.

Lemma elem_of_track_indices i ms : i ∈ track_indices ms ↔ ∃ m, m ∈ ms ∧ trackIdx m = i.
Proof.
  unfold track_indices. rewrite elem_of_list_to_set, list_elem_of_fmap. naive_solver.
Qed.

Lemma elem_of_det_indices i ms : i ∈ det_indices ms ↔ ∃ m, m ∈ ms ∧ detIdx m = i.
Proof.
  unfold det_indices. rewrite elem_of_list_to_set, list_elem_of_fmap. naive_solver.
Qed.

Lemma matched_track_in_range ts dets m :
  in_range ts dets m →
  ∃ track det, ts !! trackIdx m = Some track ∧ dets !! detIdx m = Some det
    ∧ matched_track ts dets m = Some (apply_match track det).
Proof.
  intros [Ht Hd].
  apply lookup_lt_is_Some_2 in Ht as [track Ht].
  apply lookup_lt_is_Some_2 in Hd as [det Hd].
  exists track, det. unfold matched_track. rewrite Ht, Hd. done.
Qed.

(** The association loop accepts exactly the pairs of [greedy]: it pushes
    their updated tracks in order and records their indices. *)
Lemma foldl_assoc_step ts dets ms s :
  Forall (in_range ts dets) ms →
  let G := greedy (assignedTrackIndices s) (assignedDetIndices s) ms in
  foldl (assoc_step ts dets) s ms
  = {| activeTracks := activeTracks s ++ omap (matched_track ts dets) G;
       assignedTrackIndices := track_indices G ∪ assignedTrackIndices s;
       assignedDetIndices := det_indices G ∪ assignedDetIndices s |}.
Proof.
  intros Hr. revert s. induction Hr as [|m ms Hm Hms IH]; intros s; simpl.
  - destruct s; simpl. f_equal; [by rewrite app_nil_r | set_solver | set_solver].
  - unfold assoc_step at 2.
    destruct (consumed m _ _) eqn:E; [apply IH|].
    destruct (matched_track_in_range ts dets m Hm) as (track & det & Ht & Hd & Hmt).
    rewrite Ht, Hd, IH. simpl. rewrite Hmt. simpl.
    rewrite track_indices_cons, det_indices_cons.
    f_equal; [by rewrite <- app_assoc | set_solver | set_solver].
Qed.

(** *** Step 2 *)

Lemma scored_in_range threshold ts dets m :
  scored threshold ts dets m → in_range ts dets m.
Proof.
  intros (track & det & Ht & Hd & _).
  split; eapply lookup_lt_Some; eauto.
Qed.

Lemma score_pairs_spec threshold ts dets :
  NoDup (score_pairs threshold ts dets)
  ∧ Forall (scored threshold ts dets) (score_pairs threshold ts dets).
Proof.
  set (P := λ (i : nat) (ms : list Match),
    NoDup ms ∧ ∀ m, m ∈ ms → scored threshold ts dets m ∧ (trackIdx m < i)%nat).
  assert (P (0 + length ts)%nat (score_pairs threshold ts dets)) as [Hnd Hall].
  { unfold score_pairs, forEach. apply (forEach_from_invariant P).
    - split; [constructor | intros m Hm; inversion Hm].
    - simpl. intros i track ms Hi [Hnd Hms].
      set (R := λ (j : nat) (ms : list Match),
        NoDup ms ∧ ∀ m, m ∈ ms → scored threshold ts dets m
          ∧ ((trackIdx m < i)%nat ∨ trackIdx m = i ∧ (detIdx m < j)%nat)).
      assert (R (0 + length dets)%nat
                (forEach (score_pair threshold track i) dets ms)) as [Hnd' Hms'].
      { unfold forEach. apply (forEach_from_invariant R).
        - split; [done|]. intros m Hm. destruct (Hms m Hm). auto.
        - simpl. intros j det ms' Hj [Hnd' Hms']. unfold score_pair.
          destruct (Qle_bool threshold _) eqn:E.
          + apply Qle_bool_iff in E. split.
            * apply NoDup_app. split_and!; [done | | apply NoDup_singleton].
              intros m Hm ->%list_elem_of_singleton.
              destruct (Hms' _ Hm) as [_ [?|[_ ?]]]; simpl in *; lia.
            * intros m [Hm| ->%list_elem_of_singleton]%elem_of_app.
              -- destruct (Hms' m Hm) as [? [?|[? ?]]]; split; auto with lia.
              -- simpl. split; [|right; lia]. by exists track, det.
          + split; [done|]. intros m Hm.
            destruct (Hms' m Hm) as [? [?|[? ?]]]; split; auto with lia. }
      split; [done|]. intros m Hm.
      destruct (Hms' m Hm) as [? [?|[? ?]]]; split; auto with lia. }
  split; [done|]. apply Forall_forall. intros m Hm. by apply Hall.
Qed.

(** Every pair that reaches the threshold is scored. *)
Lemma score_pairs_complete threshold ts dets i j track det :
  ts !! i = Some track → dets !! j = Some det →
  threshold <= calculateIoU (bbox (base track)) (bbox det) →
  {| trackIdx := i; detIdx := j;
     iou := calculateIoU (bbox (base track)) (bbox det) |}
  ∈ score_pairs threshold ts dets.
Proof.
  intros Hi Hj Hthr.
  set (mk := λ (i' j' : nat) (t' : TrackedObject) (d' : DetectedObject),
    {| trackIdx := i'; detIdx := j';
       iou := calculateIoU (bbox (base t')) (bbox d') |}).
  set (P := λ (n : nat) (ms : list Match),
    ∀ i' j' t' d', (i' < n)%nat → ts !! i' = Some t' → dets !! j' = Some d' →
      threshold <= calculateIoU (bbox (base t')) (bbox d') → mk i' j' t' d' ∈ ms).
  assert (P (0 + length ts)%nat (score_pairs threshold ts dets)) as HP.
  { unfold score_pairs, forEach. apply (forEach_from_invariant P).
    - intros i' j' t' d' Hlt. lia.
    - simpl. intros n t ms Hn Hms.
      set (R := λ (k : nat) (ms' : list Match),
        (∀ m, m ∈ ms → m ∈ ms')
        ∧ ∀ j' d', (j' < k)%nat → dets !! j' = Some d' →
            threshold <= calculateIoU (bbox (base t)) (bbox d') → mk n j' t d' ∈ ms').
      assert (R (0 + length dets)%nat (forEach (score_pair threshold t n) dets ms))
        as [Hkeep Hrow].
      { unfold forEach. apply (forEach_from_invariant R).
        - split; [done|]. intros j' d' Hlt. lia.
        - simpl. intros k d ms' Hk [Hkeep Hrow]. unfold score_pair.
          destruct (Qle_bool threshold _) eqn:E.
          + split.
            * intros m Hm. apply elem_of_app. left. by apply Hkeep.
            * intros j' d' Hlt Hj' Hthr'. apply elem_of_app.
              destruct (decide (j' = k)) as [->|Hne].
              -- right. assert (d' = d) as -> by congruence. by left.
              -- left. apply Hrow; [lia | done..].
          + split; [done|]. intros j' d' Hlt Hj' Hthr'.
            destruct (decide (j' = k)) as [->|Hne].
            * assert (d' = d) as -> by congruence.
              apply Qle_bool_iff in Hthr'. congruence.
            * apply Hrow; [lia | done..]. }
      intros i' j' t' d' Hlt Hi' Hj' Hthr'.
      destruct (decide (i' = n)) as [->|Hne].
      + assert (t' = t) as -> by congruence.
        apply Hrow; [|done..]. simpl. by eapply lookup_lt_Some.
      + apply Hkeep, Hms; [lia | done..]. }
  apply (HP i j track det); [|done..]. simpl. by eapply lookup_lt_Some.
Qed.

(** *** The sort *)

Lemma insert_match_perm a ms : insert_match a ms ≡ₚ a :: ms.
Proof.
  induction ms as [|b ms IH]; simpl; [done|].
  destruct (Qle_bool (iou b) (iou a)); [done|].
  rewrite IH. apply Permutation_swap.
Qed.

Lemma sort_matches_perm ms : sort_matches ms ≡ₚ ms.
Proof.
  induction ms as [|a ms IH]; simpl; [done|].
  by rewrite insert_match_perm, IH.
Qed.

Lemma insert_match_sorted a ms :
  StronglySorted iou_desc ms → StronglySorted iou_desc (insert_match a ms).
Proof.
  induction 1 as [|b ms Hs IH Hb]; simpl.
  - repeat constructor.
  - destruct (Qle_bool (iou b) (iou a)) eqn:E.
    + apply Qle_bool_iff in E. constructor; [by constructor|].
      constructor; [done|].
      eapply Forall_impl; [exact Hb|]. unfold iou_desc. intros c Hc. lra.
    + apply Qle_bool_false in E. constructor; [done|].
      rewrite insert_match_perm. constructor; [|done].
      unfold iou_desc. lra.
Qed.

(** The sort is stable: pairs of equal IoU keep their relative order. *)
Lemma insert_match_stable (q : Q) a ms :
  filter (λ m, Qeq_bool (iou m) q = true) (insert_match a ms)
  = filter (λ m, Qeq_bool (iou m) q = true) (a :: ms).
Proof.
  induction ms as [|b ms IH]; simpl; [done|].
  destruct (Qle_bool (iou b) (iou a)) eqn:E; [done|].
  apply Qle_bool_false in E.
  rewrite (filter_cons _ b (insert_match a ms)), IH, !filter_cons.
  destruct (decide (Qeq_bool (iou a) q = true)) as [Ha|Ha]; [|done].
  destruct (decide (Qeq_bool (iou b) q = true)) as [Hb|Hb]; [|done].
  apply Qeq_bool_iff in Ha, Hb. lra.
Qed.

Lemma sort_matches_stable (q : Q) ms :
  filter (λ m, Qeq_bool (iou m) q = true) (sort_matches ms)
  = filter (λ m, Qeq_bool (iou m) q = true) ms.
Proof.
  induction ms as [|a ms IH]; simpl; [done|].
  by rewrite insert_match_stable, !filter_cons, IH.
Qed.

Lemma sort_matches_sorted ms : StronglySorted iou_desc (sort_matches ms).
Proof.
  induction ms as [|a ms IH]; simpl; [constructor | by apply insert_match_sorted].
Qed.

(** *** The greedy walk *)

Lemma consumed_false m aT aD :
  consumed m aT aD = false ↔ (trackIdx m ∉ aT) ∧ (detIdx m ∉ aD).
Proof.
  unfold consumed. rewrite orb_false_iff, !bool_decide_eq_false. done.
Qed.

Lemma consumed_true m aT aD :
  consumed m aT aD = true ↔ trackIdx m ∈ aT ∨ detIdx m ∈ aD.
Proof.
  unfold consumed. rewrite orb_true_iff, !bool_decide_eq_true. done.
Qed.

Lemma greedy_sublist aT aD ms : (greedy aT aD ms) `sublist_of` ms.
Proof.
  revert aT aD. induction ms as [|m ms IH]; intros aT aD; simpl; [done|].
  destruct (consumed m aT aD).
  - by apply sublist_cons.
  - by apply sublist_skip.
Qed.

Lemma greedy_elem_of aT aD ms m : m ∈ greedy aT aD ms → m ∈ ms.
Proof. intros Hm. eapply elem_of_sublist; [done | apply greedy_sublist]. Qed.

Lemma greedy_fresh aT aD ms m :
  m ∈ greedy aT aD ms → (trackIdx m ∉ aT) ∧ (detIdx m ∉ aD).
Proof.
  revert aT aD. induction ms as [|m' ms IH]; intros aT aD; simpl.
  - by intros ?%elem_of_nil.
  - destruct (consumed m' aT aD) eqn:E; [by apply IH|].
    apply consumed_false in E.
    intros [->|Hm]%elem_of_cons; [done|].
    apply IH in Hm. set_solver.
Qed.

Lemma greedy_NoDup aT aD ms :
  NoDup (trackIdx <$> greedy aT aD ms) ∧ NoDup (detIdx <$> greedy aT aD ms).
Proof.
  revert aT aD. induction ms as [|m ms IH]; intros aT aD; simpl.
  - split; constructor.
  - destruct (consumed m aT aD); [apply IH|].
    destruct (IH ({[trackIdx m]} ∪ aT) ({[detIdx m]} ∪ aD)) as [Ht Hd].
    rewrite !fmap_cons.
    split; (constructor; [|done]);
      rewrite list_elem_of_fmap; intros (m' & Heq & Hm');
      apply greedy_fresh in Hm'; set_solver.
Qed.

Lemma greedy_app aT aD ms1 ms2 :
  greedy aT aD (ms1 ++ ms2)
  = greedy aT aD ms1
    ++ greedy (track_indices (greedy aT aD ms1) ∪ aT)
              (det_indices (greedy aT aD ms1) ∪ aD) ms2.
Proof.
  revert aT aD. induction ms1 as [|m ms1 IH]; intros aT aD; simpl.
  - replace (track_indices [] ∪ aT) with aT by set_solver.
    replace (det_indices [] ∪ aD) with aD by set_solver. done.
  - destruct (consumed m aT aD); [apply IH|].
    rewrite IH. simpl. rewrite track_indices_cons, det_indices_cons.
    set (G := greedy _ _ ms1).
    replace (track_indices G ∪ ({[trackIdx m]} ∪ aT))
      with ({[trackIdx m]} ∪ track_indices G ∪ aT) by set_solver.
    replace (det_indices G ∪ ({[detIdx m]} ∪ aD))
      with ({[detIdx m]} ∪ det_indices G ∪ aD) by set_solver.
    done.
Qed.

(** Distinct indices below a bound are at most as many as the bound. *)
Lemma NoDup_bounded_length (l : list nat) n :
  NoDup l → (∀ i, i ∈ l → (i < n)%nat) → (length l ≤ n)%nat.
Proof.
  intros Hnd Hlt.
  rewrite <- (length_seq n 0). apply submseteq_length, NoDup_submseteq; [done|].
  intros i Hi. apply elem_of_seq. specialize (Hlt i Hi). lia.
Qed.

Lemma greedy_length ts dets aT aD ms :
  Forall (in_range ts dets) ms →
  (length (greedy aT aD ms) ≤ (length ts) `min` (length dets))%nat.
Proof.
  intros Hr. destruct (greedy_NoDup aT aD ms) as [Ht Hd].
  assert (∀ m, m ∈ greedy aT aD ms → in_range ts dets m) as Hg.
  { rewrite Forall_forall in Hr. intros m Hm. eapply Hr, greedy_elem_of, Hm. }
  apply Nat.min_glb.
  - rewrite <- (length_fmap trackIdx). apply NoDup_bounded_length; [done|].
    intros i (m & -> & Hm)%list_elem_of_fmap. by apply Hg.
  - rewrite <- (length_fmap detIdx). apply NoDup_bounded_length; [done|].
    intros i (m & -> & Hm)%list_elem_of_fmap. by apply Hg.
Qed.

(** Where a pair stands in the walk decides its fate: it is accepted exactly
    when no pair accepted before it shares its track or its detection. *)
Lemma greedy_middle aT aD before m after :
  NoDup (before ++ m :: after) →
  let G := greedy aT aD (before ++ m :: after) in
  (∀ m', m' ∈ before → m' ∈ G → m' ∈ greedy aT aD before)
  ∧ (m ∈ G ↔
     consumed m (track_indices (greedy aT aD before) ∪ aT)
                (det_indices (greedy aT aD before) ∪ aD) = false).
Proof.
  intros Hnd G. subst G. rewrite greedy_app.
  set (G1 := greedy aT aD before).
  set (aT1 := track_indices G1 ∪ aT). set (aD1 := det_indices G1 ∪ aD).
  apply NoDup_app in Hnd as (Hb & Hdisj & Hma).
  apply NoDup_cons in Hma as [Hm Ha].
  split.
  - intros m' Hb' [Hin|Hin]%elem_of_app; [done|].
    apply greedy_elem_of in Hin. exfalso. by apply (Hdisj m').
  - split.
    + intros [Hin|Hin]%elem_of_app.
      * apply greedy_elem_of in Hin. exfalso. apply (Hdisj m Hin). by left.
      * simpl in Hin. destruct (consumed m aT1 aD1); [|done].
        apply greedy_elem_of in Hin. contradiction.
    + intros Hc. apply elem_of_app. right. simpl. rewrite Hc. by left.
Qed.

(** *** The whole call *)

Lemma candidates_spec this dets :
  NoDup (candidates this dets)
  ∧ Forall (scored (iouThreshold this) (predicted this) dets) (candidates this dets)
  ∧ StronglySorted iou_desc (candidates this dets).
Proof.
  unfold candidates.
  destruct (score_pairs_spec (iouThreshold this) (predicted this) dets) as [Hnd Hall].
  split_and!.
  - by rewrite sort_matches_perm.
  - by rewrite sort_matches_perm.
  - apply sort_matches_sorted.
Qed.

Lemma candidates_in_range this dets :
  Forall (in_range (predicted this) dets) (candidates this dets).
Proof.
  destruct (candidates_spec this dets) as (_ & Hall & _).
  eapply Forall_impl; [exact Hall|]. apply scored_in_range.
Qed.

Lemma associate_accepted this dets :
  associate (predicted this) dets (candidates this dets)
  = {| activeTracks := matched this dets;
       assignedTrackIndices := track_indices (accepted this dets);
       assignedDetIndices := det_indices (accepted this dets) |}.
Proof.
  unfold associate. rewrite foldl_assoc_step by apply candidates_in_range.
  simpl. unfold matched, accepted. f_equal; set_solver.
Qed.

(** The returned list is the matched tracks, then the surviving unmatched
    tracks, then the new tracks; the counter advances by the number of new
    tracks and the configuration is unchanged. *)
Lemma update_unfold rand this dets :
  update rand this dets
  = {| nextId := nextId this + Z.of_nat (length (spawned rand this dets));
       tracks := matched this dets ++ aged this dets ++ spawned rand this dets;
       maxMissingFrames := maxMissingFrames this;
       iouThreshold := iouThreshold this |}.
Proof.
  unfold update. fold (predicted this). fold (candidates this dets).
  rewrite associate_accepted. simpl.
  unfold forEach. rewrite forEach_age, forEach_spawn. simpl.
  fold (aged this dets). fold (spawned rand this dets).
  by rewrite app_assoc.
Qed.

Lemma accepted_in_range this dets :
  Forall (in_range (predicted this) dets) (accepted this dets).
Proof.
  apply Forall_forall. intros m Hm%greedy_elem_of.
  pose proof (candidates_in_range this dets) as Hr.
  rewrite Forall_forall in Hr. by apply Hr.
Qed.

Lemma omap_matched_track_lookup ts dets ms j m :
  Forall (in_range ts dets) ms → ms !! j = Some m →
  omap (matched_track ts dets) ms !! j = matched_track ts dets m.
Proof.
  intros Hr. revert j. induction Hr as [|m' ms Hm' Hms IH]; intros j Hj; [done|].
  destruct (matched_track_in_range ts dets m' Hm') as (t & d & _ & _ & Hmt).
  simpl. rewrite Hmt. destruct j as [|j]; simpl in *.
  - injection Hj as <-. by rewrite Hmt.
  - by apply IH.
Qed.

Lemma omap_matched_track_length ts dets ms :
  Forall (in_range ts dets) ms →
  length (omap (matched_track ts dets) ms) = length ms.
Proof.
  induction 1 as [|m ms Hm Hms IH]; [done|].
  destruct (matched_track_in_range _ _ m Hm) as (t & d & _ & _ & Hmt).
  simpl. rewrite Hmt. simpl. f_equal. exact IH.
Qed.

Lemma length_matched this dets :
  length (matched this dets) = length (accepted this dets).
Proof. apply omap_matched_track_length, accepted_in_range. Qed.

Lemma predicted_lookup this j :
  predicted this !! j = predict <$> tracks this !! j.
Proof. unfold predicted. apply list_lookup_fmap. Qed.

Lemma matched_lookup this dets j m :
  accepted this dets !! j = Some m →
  ∃ track det,
    tracks this !! trackIdx m = Some track ∧ dets !! detIdx m = Some det
    ∧ matched this dets !! j = Some (apply_match (predict track) det).
Proof.
  intros Hj. pose proof (accepted_in_range this dets) as Hr.
  unfold matched. rewrite (omap_matched_track_lookup _ _ _ j m Hr Hj).
  rewrite Forall_forall in Hr.
  destruct (matched_track_in_range _ _ m (Hr m (list_elem_of_lookup_2 _ _ _ Hj)))
    as (track' & det & Ht & Hd & Hmt).
  rewrite predicted_lookup in Ht.
  destruct (tracks this !! trackIdx m) as [track|] eqn:E; [|done].
  simpl in Ht. injection Ht as <-. by exists track, det.
Qed.

End Loops.

(** * Identities of the returned tracks *)

Section Identities.

Lemma ids_predicted this : ids (predicted this) = ids (tracks this).
Proof.
  unfold ids, predicted. rewrite <- list_fmap_compose. by apply list_fmap_ext.
Qed.

Lemma elem_of_matched this dets track' :
  track' ∈ matched this dets ↔
  ∃ m track det,
    m ∈ accepted this dets ∧ tracks this !! trackIdx m = Some track
    ∧ dets !! detIdx m = Some det ∧ track' = apply_match (predict track) det.
Proof.
  split.
  - intros [j Hj]%list_elem_of_lookup.
    destruct (accepted this dets !! j) as [m|] eqn:E.
    + destruct (matched_lookup this dets j m E) as (track & det & Ht & Hd & Hm).
      exists m, track, det. split_and!; try done.
      * by eapply list_elem_of_lookup_2.
      * congruence.
    + apply lookup_ge_None in E. apply lookup_lt_Some in Hj.
      rewrite length_matched in Hj. lia.
  - intros (m & track & det & [j Hj]%list_elem_of_lookup & Ht & Hd & ->).
    destruct (matched_lookup this dets j m Hj) as (track0 & det0 & Ht0 & Hd0 & Hm).
    apply list_elem_of_lookup. exists j. congruence.
Qed.

Lemma elem_of_aged_from maxMissing assigned i ts track' :
  track' ∈ aged_from maxMissing assigned i ts ↔
  ∃ j track,
    ts !! j = Some track ∧ ((i + j)%nat ∉ assigned)
    ∧ (missingFrames track + 1 < maxMissing)%Z ∧ track' = miss track.
Proof.
  revert i. induction ts as [|t ts IH]; intros i; simpl.
  - split; [by intros ?%elem_of_nil | by intros (j & track & ? & _)].
  - rewrite elem_of_app, IH. unfold age_step. split.
    + intros [Hin|(j & track & Hj & Hna & Hlt & ->)].
      * destruct (bool_decide (i ∈ assigned)) eqn:Ea; [by apply elem_of_nil in Hin|].
        apply bool_decide_eq_false in Ea. simpl in Hin.
        destruct (Z.ltb_spec (missingFrames t + 1) maxMissing) as [Hlt|Hge];
          [|by apply elem_of_nil in Hin].
        apply list_elem_of_singleton in Hin as ->.
        exists 0%nat, t. by rewrite Nat.add_0_r.
      * exists (S j), track. by rewrite Nat.add_succ_r.
    + intros ([|j] & track & Hj & Hna & Hlt & ->); simpl in Hj.
      * injection Hj as ->. left. rewrite Nat.add_0_r in Hna.
        rewrite bool_decide_eq_false_2 by done. simpl.
        destruct (Z.ltb_spec (missingFrames track + 1) maxMissing); [|lia].
        by left.
      * right. exists j, track. by rewrite Nat.add_succ_r in Hna.
Qed.

Lemma ids_aged_from_sublist maxMissing assigned i ts :
  (ids (aged_from maxMissing assigned i ts)) `sublist_of` (ids ts).
Proof.
  revert i. induction ts as [|t ts IH]; intros i; simpl; [done|].
  unfold ids in *. rewrite fmap_app. unfold age_step.
  destruct (bool_decide (i ∈ assigned)); simpl; [by apply sublist_cons|].
  destruct (missingFrames t + 1 <? maxMissing)%Z; simpl.
  - by apply sublist_skip.
  - by apply sublist_cons.
Qed.

(** New tracks take the consecutive ids [next], [next + 1], ... *)
Lemma ids_spawned_from rand assigned i dets next draws :
  ids (spawned_from rand assigned i dets next draws)
  = (λ k, next + Z.of_nat k)%Z
      <$> seq 0 (length (spawned_from rand assigned i dets next draws)).
Proof.
  revert i next draws. induction dets as [|d dets IH]; intros i next draws; simpl; [done|].
  destruct (bool_decide (i ∈ assigned)); [apply IH|].
  simpl. unfold ids in *. rewrite IH. f_equal; [lia|].
  rewrite <- fmap_S_seq, <- list_fmap_compose. apply list_fmap_ext.
  intros _ k _. simpl. lia.
Qed.

Lemma elem_of_ids_spawned_from rand assigned i dets next draws x :
  x ∈ ids (spawned_from rand assigned i dets next draws) →
  (next ≤ x < next + Z.of_nat (length (spawned_from rand assigned i dets next draws)))%Z.
Proof.
  rewrite ids_spawned_from. intros (k & -> & Hk%elem_of_seq)%list_elem_of_fmap. lia.
Qed.

Lemma ids_spawned_from_sorted rand assigned i dets next draws :
  StronglySorted Z.lt (ids (spawned_from rand assigned i dets next draws)).
Proof.
  rewrite ids_spawned_from. generalize (length (spawned_from rand assigned i dets next draws)).
  intros n. generalize 0%nat. induction n as [|n IH]; intros k; simpl; constructor.
  - apply IH.
  - apply Forall_forall. intros x (j & -> & Hj%elem_of_seq)%list_elem_of_fmap. lia.
Qed.

Lemma increasing_NoDup (l : list Z) : StronglySorted Z.lt l → NoDup l.
Proof.
  induction 1 as [|x l Hs IH Hx]; constructor; [|done].
  rewrite Forall_forall in Hx. intros Hin%Hx. lia.
Qed.

Lemma ids_lookup_inj ts j1 j2 t1 t2 :
  NoDup (ids ts) → ts !! j1 = Some t1 → ts !! j2 = Some t2 → id t1 = id t2 →
  j1 = j2.
Proof.
  intros Hnd H1 H2 Heq. eapply NoDup_lookup; [exact Hnd | |].
  - unfold ids. rewrite list_lookup_fmap, H1. done.
  - unfold ids. rewrite list_lookup_fmap, H2. simpl. by rewrite Heq.
Qed.

Lemma matched_track_Some ts dets m track' :
  matched_track ts dets m = Some track' →
  ∃ track det, ts !! trackIdx m = Some track ∧ dets !! detIdx m = Some det
    ∧ track' = apply_match track det.
Proof.
  unfold matched_track. intros H.
  destruct (ts !! trackIdx m) as [track|]; [|done].
  destruct (dets !! detIdx m) as [det|]; [|done].
  simpl in H. injection H as <-. by exists track, det.
Qed.

Lemma ids_omap_matched_NoDup ts dets ms :
  NoDup (ids ts) → NoDup (trackIdx <$> ms) →
  NoDup (ids (omap (matched_track ts dets) ms)).
Proof.
  intros Hts. induction ms as [|m ms IH]; [constructor|].
  rewrite fmap_cons, NoDup_cons. intros [Hm Hms]. simpl.
  destruct (matched_track ts dets m) as [track'|] eqn:E; [|by apply IH].
  unfold ids in *. rewrite fmap_cons. constructor; [|by apply IH].
  rewrite list_elem_of_fmap. intros (t2 & Hid & (m2 & Hm2 & E2)%list_elem_of_omap).
  apply matched_track_Some in E as (track & det & Ht & _ & ->).
  apply matched_track_Some in E2 as (track2 & det2 & Ht2 & _ & ->).
  simpl in Hid. apply Hm. apply list_elem_of_fmap. exists m2. split; [|done].
  by eapply (ids_lookup_inj ts).
Qed.

(** Where each returned track comes from. *)
Lemma elem_of_update rand this dets track' :
  track' ∈ tracks (update rand this dets) ↔
  track' ∈ matched this dets ∨ track' ∈ aged this dets
  ∨ track' ∈ spawned rand this dets.
Proof. rewrite update_unfold. simpl. by rewrite !elem_of_app. Qed.

Lemma elem_of_aged this dets track' :
  track' ∈ aged this dets ↔
  ∃ j track,
    tracks this !! j = Some track ∧ (j ∉ track_indices (accepted this dets))
    ∧ (missingFrames track + 1 < maxMissingFrames this)%Z
    ∧ track' = miss (predict track).
Proof.
  unfold aged. rewrite elem_of_aged_from. split.
  - intros (j & t & Hj & Hna & Hlt & ->). rewrite predicted_lookup in Hj.
    destruct (tracks this !! j) as [track|] eqn:E; [|done].
    simpl in Hj. injection Hj as <-. by exists j, track.
  - intros (j & track & Hj & Hna & Hlt & ->).
    exists j, (predict track). rewrite predicted_lookup, Hj. done.
Qed.

Lemma update_nextId rand this dets :
  nextId (update rand this dets)
  = (nextId this + Z.of_nat (length (spawned rand this dets)))%Z.
Proof. by rewrite update_unfold. Qed.

Lemma elem_of_ids_spawned rand this dets x :
  x ∈ ids (spawned rand this dets) →
  (nextId this ≤ x < nextId (update rand this dets))%Z.
Proof.
  rewrite update_nextId. apply elem_of_ids_spawned_from.
Qed.

Lemma elem_of_ids_matched this dets x :
  x ∈ ids (matched this dets) → x ∈ ids (tracks this).
Proof.
  unfold ids. rewrite !list_elem_of_fmap.
  intros (t' & -> & (m & track & det & _ & Ht & _ & ->)%elem_of_matched).
  exists track. split; [done|]. by eapply list_elem_of_lookup_2.
Qed.

Lemma elem_of_ids_aged this dets x :
  x ∈ ids (aged this dets) → x ∈ ids (tracks this).
Proof.
  unfold ids. rewrite !list_elem_of_fmap.
  intros (t' & -> & (j & track & Hj & _ & _ & ->)%elem_of_aged).
  exists track. split; [done|]. by eapply list_elem_of_lookup_2.
Qed.

(** An [update] call keeps the ids distinct, positive and below the counter. *)
Lemma update_wf rand this dets : wf this → wf (update rand this dets).
Proof.
  intros (Hpos & Hnd & Hlt). rewrite Forall_forall in Hlt.
  pose proof (update_nextId rand this dets) as Hnext.
  split_and!.
  - lia.
  - rewrite update_unfold. simpl. unfold ids. rewrite !fmap_app. fold ids.
    apply NoDup_app. split_and!.
    + apply ids_omap_matched_NoDup.
      * by rewrite ids_predicted.
      * apply greedy_NoDup.
    + intros x Hx [Ha|Hs]%elem_of_app.
      * unfold ids in Hx, Ha. apply list_elem_of_fmap in Hx as (t1 & -> & Ht1).
        apply list_elem_of_fmap in Ha as (t2 & Heq & Ht2).
        apply elem_of_matched in Ht1 as (m & track & det & Hm & Ht & _ & ->).
        apply elem_of_aged in Ht2 as (j & track2 & Hj & Hna & _ & ->).
        simpl in Heq. apply Hna. apply elem_of_track_indices. exists m.
        split; [done|]. by eapply (ids_lookup_inj (tracks this)).
      * apply elem_of_ids_matched, Hlt in Hx.
        apply elem_of_ids_spawned in Hs. lia.
    + apply NoDup_app. split_and!.
      * apply (sublist_NoDup _ (ids (predicted this)));
          [by rewrite ids_predicted | apply ids_aged_from_sublist].
      * intros x Hx%elem_of_ids_aged%Hlt Hs%elem_of_ids_spawned. lia.
      * apply increasing_NoDup, ids_spawned_from_sorted.
  - apply Forall_forall. intros x (t & -> & Ht)%list_elem_of_fmap.
    apply elem_of_update in Ht as [Ht|[Ht|Ht]].
    + assert (id t ∈ ids (matched this dets)) as Hx by by apply list_elem_of_fmap_2.
      apply elem_of_ids_matched, Hlt in Hx. lia.
    + assert (id t ∈ ids (aged this dets)) as Hx by by apply list_elem_of_fmap_2.
      apply elem_of_ids_aged, Hlt in Hx. lia.
    + assert (id t ∈ ids (spawned rand this dets)) as Hx by by apply list_elem_of_fmap_2.
      apply elem_of_ids_spawned in Hx. lia.
Qed.

(** *** The fate of one live track *)

Lemma update_matched_present rand this dets track :
  id track ∈ matched_ids this dets → id track ∈ ids (tracks (update rand this dets)).
Proof.
  unfold matched_ids, ids. rewrite !list_elem_of_fmap.
  intros (t' & Heq & Ht'). exists t'. split; [done|].
  apply elem_of_update. by left.
Qed.

(** A live track that is not matched is returned, one frame older, when its
    incremented counter is below the limit, and is not returned otherwise. *)
Lemma update_unmatched rand this dets track :
  wf this → track ∈ tracks this → (id track ∉ matched_ids this dets) →
  ((missingFrames track + 1 < maxMissingFrames this)%Z →
   miss (predict track) ∈ tracks (update rand this dets))
  ∧ (¬ (missingFrames track + 1 < maxMissingFrames this)%Z →
     absent (id track) (update rand this dets)).
Proof.
  intros (Hpos & Hnd & Hlt) [j Hj]%list_elem_of_lookup Hun.
  rewrite Forall_forall in Hlt.
  assert (Hna : j ∉ track_indices (accepted this dets)).
  { intros (m & Hm & Heq)%elem_of_track_indices. apply Hun.
    apply list_elem_of_lookup in Hm as [k Hk].
    destruct (matched_lookup this dets k m Hk) as (track0 & det & Ht0 & _ & Hm).
    assert (track0 = track) as -> by congruence.
    unfold matched_ids, ids. apply list_elem_of_fmap.
    exists (apply_match (predict track) det). split; [done|].
    by eapply list_elem_of_lookup_2. }
  split.
  - intros Hlim. apply elem_of_update. right. left.
    apply elem_of_aged. by exists j, track.
  - intros Hlim. unfold absent, ids.
    intros (t' & Heq & [Ht'|[Ht'|Ht']]%elem_of_update)%list_elem_of_fmap.
    + apply Hun. unfold matched_ids, ids. apply list_elem_of_fmap. by exists t'.
    + apply elem_of_aged in Ht' as (j' & track' & Hj' & _ & Hlim' & ->).
      simpl in Heq.
      assert (j = j') as <- by by eapply (ids_lookup_inj (tracks this)).
      assert (track' = track) as -> by congruence. done.
    + assert (id t' ∈ ids (spawned rand this dets)) as Hs by by apply list_elem_of_fmap_2.
      apply elem_of_ids_spawned in Hs.
      assert (id track ∈ ids (tracks this)) as Hin.
      { apply list_elem_of_fmap_2. by eapply list_elem_of_lookup_2. }
      apply Hlt in Hin. lia.
Qed.

Lemma run_wf this frames : wf this → wf (run this frames).
Proof.
  revert this. induction frames as [|f frames IH]; intros this Hwf; [done|].
  simpl. by apply IH, update_wf.
Qed.

Lemma update_nextId_le rand this dets :
  (nextId this ≤ nextId (update rand this dets))%Z.
Proof. rewrite update_nextId. lia. Qed.

(** An id below the counter that no live track carries is never seen again. *)
Lemma absent_update rand this dets i :
  (i < nextId this)%Z → absent i this → absent i (update rand this dets).
Proof.
  unfold absent. intros Hlt Hab (t' & -> & [Ht'|[Ht'|Ht']]%elem_of_update)%list_elem_of_fmap.
  - apply Hab, elem_of_ids_matched with dets. by apply list_elem_of_fmap_2.
  - apply Hab, elem_of_ids_aged with dets. by apply list_elem_of_fmap_2.
  - assert (id t' ∈ ids (spawned rand this dets)) as Hs by by apply list_elem_of_fmap_2.
    apply elem_of_ids_spawned in Hs. lia.
Qed.

Lemma absent_run this frames i :
  (i < nextId this)%Z → absent i this → absent i (run this frames).
Proof.
  revert this. induction frames as [|f frames IH]; intros this Hlt Hab; [done|].
  simpl. apply IH.
  - pose proof (update_nextId_le f.1 this f.2). lia.
  - by apply absent_update.
Qed.

Lemma run_maxMissingFrames this frames :
  maxMissingFrames (run this frames) = maxMissingFrames this.
Proof.
  revert this. induction frames as [|f frames IH]; intros this; [done|].
  simpl. rewrite IH. by rewrite update_unfold.
Qed.

(** A live track that goes unmatched through [frames] ages by one per call
    while its counter stays below the limit and is dropped by the call at
    which the counter reaches it. *)
Lemma unmatched_streak frames this track :
  wf this → track ∈ tracks this → unmatched_run (id track) this frames →
  let k := Z.of_nat (length frames) in
  ((missingFrames track + k < maxMissingFrames this)%Z →
   ∃ track', track' ∈ tracks (run this frames) ∧ id track' = id track
     ∧ missingFrames track' = (missingFrames track + k)%Z)
  ∧ ((0 < k)%Z → (missingFrames track + k = maxMissingFrames this)%Z →
     absent (id track) (run this frames)).
Proof.
  revert this track.
  induction frames as [|f frames IH]; intros this track Hwf Hin Hun k; subst k.
  - simpl. split; [|lia]. intros _. exists track. split_and!; [done..|lia].
  - destruct Hun as [Hun Hrest].
    destruct (update_unmatched f.1 this f.2 track Hwf Hin Hun) as [Hkeep Hdrop].
    assert (Hmax : maxMissingFrames (update f.1 this f.2) = maxMissingFrames this)
      by by rewrite update_unfold.
    pose proof (update_wf f.1 this f.2 Hwf) as Hwf'.
    specialize (IH (update f.1 this f.2) (miss (predict track)) Hwf').
    rewrite Hmax in IH.
    change (id (miss (predict track))) with (id track) in IH.
    change (missingFrames (miss (predict track)))
      with (missingFrames track + 1)%Z in IH.
    simpl length. rewrite Nat2Z.inj_succ. simpl run.
    split.
    + intros Hlt. destruct IH as [IH1 _]; [apply Hkeep; lia | done |].
      destruct IH1 as (track' & Hin' & Hid & Hmiss); [lia|].
      exists track'. split_and!; [done..|]. lia.
    + intros _ Heq. destruct frames as [|f' frames'].
      * simpl. apply Hdrop. simpl in Heq. lia.
      * destruct IH as [_ IH2]; [apply Hkeep; simpl length in Heq; lia | done |].
        apply IH2; simpl length in *; lia.
Qed.

(** *** Sequences of calls *)

Lemma new_wf maxMissing threshold : wf (new maxMissing threshold).
Proof. split_and!; [done | constructor | constructor]. Qed.

Lemma reset_wf this : wf (reset this).
Proof. split_and!; [done | constructor | constructor]. Qed.

Lemma call_wf this c : wf this → wf (call this c).
Proof. destruct c; [apply update_wf | intros _; apply reset_wf]. Qed.

(** Every state reached from a new tracker is well formed. *)
Lemma calls_wf maxMissing threshold cs : wf (calls (new maxMissing threshold) cs).
Proof.
  generalize (new_wf maxMissing threshold). generalize (new maxMissing threshold).
  induction cs as [|c cs IH]; intros this Hwf; [done|].
  simpl. by apply IH, call_wf.
Qed.

Lemma calls_invariant cs this earlier :
  wf this → StronglySorted Z.lt earlier →
  Forall (λ i, (0 < i < nextId this)%Z) earlier →
  wf (calls this cs)
  ∧ StronglySorted Z.lt (assigned_since_reset earlier this cs)
  ∧ Forall (λ i, (0 < i < nextId (calls this cs))%Z)
      (assigned_since_reset earlier this cs).
Proof.
  revert this earlier. induction cs as [|c cs IH]; intros this earlier Hwf Hs He; [done|].
  destruct c as [rand dets|]; simpl.
  - rewrite Forall_forall in He. pose proof Hwf as (Hpos & _ & _).
    apply IH.
    + by apply update_wf.
    + apply StronglySorted_app. split_and!; [|done | apply ids_spawned_from_sorted].
      intros x y Hx%He Hy%elem_of_ids_spawned. lia.
    + apply Forall_forall. intros x [Hx%He|Hx%elem_of_ids_spawned]%elem_of_app.
      * pose proof (update_nextId_le rand this dets). lia.
      * lia.
  - apply IH; [apply reset_wf | constructor | constructor].
Qed.

End Identities.

(** * Shared arrays *)

Section Sharing.

Implicit Types (h : gmap nat BBox) (ts : list Shared.TrackedObject)
  (dets : list Shared.DetectedObject).

Lemma array_insert h l b : Shared.array (<[l := b]> h) l = b.
Proof. unfold Shared.array. by rewrite lookup_insert_eq. Qed.

Lemma array_insert_ne h l l' b : l ≠ l' → Shared.array (<[l := b]> h) l' = Shared.array h l'.
Proof. intros Hne. unfold Shared.array. by rewrite lookup_insert_ne. Qed.

Lemma array_agree h h' l : h' !! l = h !! l → Shared.array h' l = Shared.array h l.
Proof. unfold Shared.array. by intros ->. Qed.

(** Step 1 on tracks with distinct arrays advances each of them once and
    writes nowhere else. *)
Lemma predict_loop ts h i :
  NoDup (Shared.track_arrays ts) →
  let h' := forEach_from i (λ track _, Shared.predict track) ts h in
  (∀ l, l ∉ Shared.track_arrays ts → h' !! l = h !! l)
  ∧ dom h' = list_to_set (Shared.track_arrays ts) ∪ dom h
  ∧ ∀ track, track ∈ ts →
      Shared.read_tracked h' track = predict (Shared.read_tracked h track).
Proof.
  revert h i. induction ts as [|t ts IH]; intros h i Hnd.
  - split_and!; [done | set_solver | by intros ? ?%elem_of_nil].
  - change (Shared.track_arrays (t :: ts))
      with (Shared.bbox (Shared.base t) :: Shared.track_arrays ts) in *.
    apply NoDup_cons in Hnd as [Ht Hnd].
    destruct (IH (Shared.predict t h) (S i) Hnd) as (Hframe & Hdom & Hpred).
    cbn [forEach_from]. split_and!.
    + intros l [Hne Hl]%not_elem_of_cons.
      rewrite Hframe by done. unfold Shared.predict. by rewrite lookup_insert_ne.
    + rewrite Hdom. unfold Shared.predict. rewrite dom_insert_L. set_solver.
    + intros track [->|Hin]%elem_of_cons.
      * unfold Shared.read_tracked, Shared.read_detected, predict, set_bbox. simpl.
        do 2 f_equal. rewrite (array_agree _ _ _ (Hframe _ Ht)).
        unfold Shared.predict. by rewrite array_insert.
      * rewrite (Hpred track Hin). f_equal.
        unfold Shared.read_tracked, Shared.read_detected. do 2 f_equal.
        unfold Shared.predict. apply array_insert_ne.
        intros Heq. apply Ht. rewrite Heq.
        by apply (list_elem_of_fmap_2 (Shared.bbox ∘ Shared.base)).
Qed.

(** With the arrays read from the store, steps 2 to 5 are the steps of the
    value model. *)
Lemma score_pairs_read h threshold ts dets :
  Shared.score_pairs h threshold ts dets
  = score_pairs threshold (Shared.read_tracked h <$> ts)
      (Shared.read_detected h <$> dets).
Proof.
  unfold Shared.score_pairs, score_pairs, forEach.
  rewrite forEach_from_fmap. apply forEach_from_ext. intros track j s.
  rewrite forEach_from_fmap. by apply forEach_from_ext.
Qed.

Lemma assoc_step_read h ts dets s m :
  Shared.read_assoc h (Shared.assoc_step h ts dets s m)
  = assoc_step (Shared.read_tracked h <$> ts) (Shared.read_detected h <$> dets)
      (Shared.read_assoc h s) m.
Proof.
  unfold Shared.assoc_step, assoc_step. simpl.
  destruct (consumed m _ _); [done|].
  rewrite !list_lookup_fmap.
  destruct (ts !! trackIdx m) as [track|]; [|done].
  destruct (dets !! detIdx m) as [det|]; [|done].
  unfold Shared.read_assoc. simpl. by rewrite fmap_app.
Qed.

Lemma associate_read h ts dets ms :
  Shared.read_assoc h (Shared.associate h ts dets ms)
  = associate (Shared.read_tracked h <$> ts) (Shared.read_detected h <$> dets) ms.
Proof.
  unfold Shared.associate, associate.
  change (mkAssoc [] ∅ ∅) with (Shared.read_assoc h (Shared.mkAssoc [] ∅ ∅)).
  generalize (Shared.mkAssoc [] ∅ ∅).
  induction ms as [|m ms IH]; intros s; simpl; [done|].
  by rewrite IH, assoc_step_read.
Qed.

Lemma age_read h maxMissing assigned ts i active :
  Shared.read_tracked h <$> forEach_from i (Shared.age_step maxMissing assigned) ts active
  = forEach_from i (age_step maxMissing assigned) (Shared.read_tracked h <$> ts)
      (Shared.read_tracked h <$> active).
Proof.
  revert i active. induction ts as [|t ts IH]; intros i active; simpl; [done|].
  rewrite IH. f_equal. unfold Shared.age_step, age_step.
  destruct (bool_decide (i ∈ assigned)); [done|]. simpl.
  destruct (Shared.missingFrames t + 1 <? maxMissing)%Z; [|done].
  by rewrite fmap_app.
Qed.

Lemma spawn_read h rand assigned dets i s :
  Shared.read_spawn h (forEach_from i (Shared.spawn_step rand assigned) dets s)
  = forEach_from i (spawn_step rand assigned) (Shared.read_detected h <$> dets)
      (Shared.read_spawn h s).
Proof.
  revert i s. induction dets as [|d dets IH]; intros i s; simpl; [done|].
  rewrite IH. f_equal. unfold Shared.spawn_step, spawn_step.
  destruct (bool_decide (i ∈ assigned)); [done|].
  unfold Shared.read_spawn. simpl. by rewrite fmap_app.
Qed.

(** One call: when no array is shared, reading the result of the call on
    the store gives the result of the call on values. *)
Lemma update_read rand this h dets :
  Shared.unshared this dets →
  let r := Shared.update rand this h dets in
  Shared.read r.2 r.1
  = update rand (Shared.read h this) (Shared.read_detected h <$> dets).
Proof.
  intros Hun r. subst r. unfold Shared.unshared in Hun.
  apply NoDup_app in Hun as (Hts & Hdisj & Hdets).
  destruct (predict_loop (Shared.tracks this) h 0 Hts) as (Hframe & _ & Hpred).
  unfold Shared.update, update, forEach in *. simpl in *.
  set (h' := forEach_from 0 _ (Shared.tracks this) h) in *.
  assert (map predict (Shared.read_tracked h <$> Shared.tracks this)
          = Shared.read_tracked h' <$> Shared.tracks this) as ->.
  { change (map predict ?l) with (predict <$> l).
    rewrite <- list_fmap_compose. apply list_fmap_ext.
    intros j track Hj. simpl. symmetry. apply Hpred. by eapply list_elem_of_lookup_2. }
  assert (Shared.read_detected h <$> dets = Shared.read_detected h' <$> dets) as ->.
  { apply list_fmap_ext. intros j det Hj. unfold Shared.read_detected. f_equal.
    symmetry. apply array_agree, Hframe. intros Hin. apply (Hdisj _ Hin).
    apply list_elem_of_fmap_2. by eapply list_elem_of_lookup_2. }
  rewrite <- score_pairs_read.
  set (ms := sort_matches _).
  pose proof (associate_read h' (Shared.tracks this) dets ms) as Ha.
  rewrite <- Ha. simpl.
  rewrite <- age_read.
  set (active := forEach_from 0 (Shared.age_step _ _) _ _).
  pose proof (spawn_read h' rand
    (Shared.assignedDetIndices (Shared.associate h' (Shared.tracks this) dets ms))
    dets 0 (Shared.mkSpawn active (Shared.nextId this) 0)) as Hs.
  unfold Shared.read_spawn at 2 in Hs. simpl in Hs. rewrite <- Hs.
  done.
Qed.

(** *** No sharing is created *)

Lemma detection_arrays_inj dets k k' d d' :
  NoDup (Shared.detection_arrays dets) →
  dets !! k = Some d → dets !! k' = Some d' → Shared.bbox d = Shared.bbox d' →
  k = k'.
Proof.
  intros Hnd Hk Hk' Heq. eapply NoDup_lookup; [exact Hnd | |];
    unfold Shared.detection_arrays; rewrite list_lookup_fmap.
  - by rewrite Hk.
  - rewrite Hk'. simpl. by rewrite Heq.
Qed.

Lemma track_arrays_inj ts j j' t t' :
  NoDup (Shared.track_arrays ts) →
  ts !! j = Some t → ts !! j' = Some t' →
  Shared.bbox (Shared.base t) = Shared.bbox (Shared.base t') → j = j'.
Proof.
  intros Hnd Hj Hj' Heq. eapply NoDup_lookup; [exact Hnd | |];
    unfold Shared.track_arrays; rewrite list_lookup_fmap.
  - by rewrite Hj.
  - rewrite Hj'. simpl. by rewrite Heq.
Qed.

Lemma track_arrays_snoc ts t :
  Shared.track_arrays (ts ++ [t])
  = Shared.track_arrays ts ++ [Shared.bbox (Shared.base t)].
Proof. unfold Shared.track_arrays. by rewrite fmap_app. Qed.

Lemma NoDup_snoc (l : list nat) x : NoDup l → x ∉ l → NoDup (l ++ [x]).
Proof.
  intros Hnd Hx. apply NoDup_app. split_and!; [done | | apply NoDup_singleton].
  intros y Hy ->%list_elem_of_singleton. contradiction.
Qed.

(** The tracks of the association loop point to the arrays of the
    detections they consumed. *)
Lemma associate_arrays h ts dets ms :
  NoDup (Shared.detection_arrays dets) →
  let a := Shared.associate h ts dets ms in
  NoDup (Shared.track_arrays (Shared.activeTracks a))
  ∧ ∀ l, l ∈ Shared.track_arrays (Shared.activeTracks a) →
      ∃ k d, k ∈ Shared.assignedDetIndices a ∧ dets !! k = Some d ∧ Shared.bbox d = l.
Proof.
  intros Hnd. unfold Shared.associate.
  set (I := λ s : Shared.Assoc,
    NoDup (Shared.track_arrays (Shared.activeTracks s))
    ∧ ∀ l, l ∈ Shared.track_arrays (Shared.activeTracks s) →
        ∃ k d, k ∈ Shared.assignedDetIndices s ∧ dets !! k = Some d ∧ Shared.bbox d = l).
  assert (I (Shared.mkAssoc [] ∅ ∅)) as H0.
  { split; [constructor | by intros ? ?%elem_of_nil]. }
  revert H0. generalize (Shared.mkAssoc [] ∅ ∅).
  induction ms as [|m ms IH]; intros s Hs; [done|].
  simpl. apply IH. unfold Shared.assoc_step.
  destruct (consumed m _ _) eqn:E; [done|]. apply consumed_false in E as [_ Hd].
  destruct (ts !! trackIdx m) as [track|]; [|done].
  destruct (dets !! detIdx m) as [det|] eqn:Edet; [|done].
  destruct Hs as [Hs1 Hs2]. split; simpl; rewrite track_arrays_snoc; simpl.
  - apply NoDup_snoc; [done|]. intros (k & d & Hk & Hdk & Heq)%Hs2.
    assert (k = detIdx m) as -> by by eapply detection_arrays_inj.
    done.
  - intros l [Hl| ->%list_elem_of_singleton]%elem_of_app.
    + destruct (Hs2 l Hl) as (k & d & Hk & Hdk & Heq).
      exists k, d. split_and!; [set_solver | done..].
    + exists (detIdx m), det. split_and!; [set_solver | done..].
Qed.

(** The returned tracks point to pairwise distinct arrays, each the array
    of a track that was live or of a detection of this call. *)
Lemma update_arrays rand this h dets :
  Shared.unshared this dets →
  let r := Shared.update rand this h dets in
  NoDup (Shared.track_arrays (Shared.tracks r.1))
  ∧ ∀ l, l ∈ Shared.track_arrays (Shared.tracks r.1) →
      l ∈ Shared.track_arrays (Shared.tracks this)
      ∨ l ∈ Shared.detection_arrays dets.
Proof.
  intros Hun r. subst r. unfold Shared.unshared in Hun.
  apply NoDup_app in Hun as (Hts & Hdisj & Hdets).
  unfold Shared.update. simpl.
  set (h' := forEach _ (Shared.tracks this) h).
  set (ts := Shared.tracks this) in *.
  set (a := Shared.associate h' ts dets _).
  destruct (associate_arrays h' ts dets
    (sort_matches (Shared.score_pairs h' (Shared.iouThreshold this) ts dets)) Hdets)
    as [Ha1 Ha2].
  fold a in Ha1, Ha2.
  set (aD := Shared.assignedDetIndices a) in *.
  set (from_det := λ (bound : nat) (l : nat),
    ∃ k d, (k ∈ aD ∨ (k < bound)%nat) ∧ dets !! k = Some d ∧ Shared.bbox d = l).
  set (from_track := λ (bound : nat) (l : nat),
    ∃ j t, (j < bound)%nat ∧ ts !! j = Some t ∧ Shared.bbox (Shared.base t) = l).
  (* step 4 *)
  set (J := λ (i : nat) (active : list Shared.TrackedObject),
    NoDup (Shared.track_arrays active)
    ∧ ∀ l, l ∈ Shared.track_arrays active → from_det 0%nat l ∨ from_track i l).
  assert (J (0 + length ts)%nat
    (forEach (Shared.age_step (Shared.maxMissingFrames this)
                (Shared.assignedTrackIndices a)) ts (Shared.activeTracks a)))
    as [HJ1 HJ2].
  { unfold forEach. apply (forEach_from_invariant J).
    - split; [done|]. intros l (k & d & ? & ? & ?)%Ha2. left. exists k, d. auto.
    - simpl. intros j t active Hj [HJ1 HJ2]. unfold Shared.age_step.
      assert (∀ l, l ∈ Shared.track_arrays active → from_det 0%nat l ∨ from_track (S j) l)
        as HJ2'.
      { intros l [?|(j' & t' & ? & ? & ?)]%HJ2; [by left|].
        right. exists j', t'. auto with lia. }
      destruct (bool_decide _); [done|].
      destruct (_ <? _)%Z; [|done].
      split; rewrite track_arrays_snoc; simpl.
      + apply NoDup_snoc; [done|].
        intros [(k & d & _ & Hk & Heq)|(j' & t' & Hlt & Hj' & Heq)]%HJ2.
        * apply (Hdisj (Shared.bbox (Shared.base t))).
          -- apply (list_elem_of_fmap_2 (Shared.bbox ∘ Shared.base)).
             by eapply list_elem_of_lookup_2.
          -- rewrite <- Heq. apply list_elem_of_fmap_2.
             by eapply list_elem_of_lookup_2.
        * assert (j' = j) by by eapply (track_arrays_inj ts). lia.
      + intros l [Hl| ->%list_elem_of_singleton]%elem_of_app; [by apply HJ2'|].
        right. exists j, t. auto with lia. }
  (* step 5 *)
  set (K := λ (i : nat) (s : Shared.Spawn),
    NoDup (Shared.track_arrays (Shared.sp_active s))
    ∧ ∀ l, l ∈ Shared.track_arrays (Shared.sp_active s) →
        from_det i l ∨ from_track (length ts) l).
  set (active := forEach (Shared.age_step _ _) ts _) in *.
  assert (K (0 + length dets)%nat
    (forEach (Shared.spawn_step rand aD) dets
       (Shared.mkSpawn active (Shared.nextId this) 0))) as [HK1 HK2].
  { unfold forEach. apply (forEach_from_invariant K).
    - split; [done|]. simpl. intros l Hl. by apply HJ2.
    - simpl. intros i d s Hi [HK1 HK2]. unfold Shared.spawn_step.
      assert (∀ l, l ∈ Shared.track_arrays (Shared.sp_active s) →
                from_det (S i) l ∨ from_track (length ts) l) as HK2'.
      { intros l [(k & d' & Hk & ? & ?)|?]%HK2; [|by right].
        left. exists k, d'. split_and!; [|done..]. destruct Hk; auto with lia. }
      destruct (bool_decide (i ∈ aD)) eqn:E; [done|].
      apply bool_decide_eq_false in E.
      split; simpl; rewrite track_arrays_snoc; simpl.
      + apply NoDup_snoc; [done|].
        intros [(k & d' & Hk & Hdk & Heq)|(j & t & _ & Hj & Heq)]%HK2.
        * assert (k = i) as -> by by eapply detection_arrays_inj.
          destruct Hk; [done | lia].
        * apply (Hdisj (Shared.bbox d)).
          -- rewrite <- Heq. apply (list_elem_of_fmap_2 (Shared.bbox ∘ Shared.base)).
             by eapply list_elem_of_lookup_2.
          -- apply list_elem_of_fmap_2. by eapply list_elem_of_lookup_2.
      + intros l [Hl| ->%list_elem_of_singleton]%elem_of_app; [by apply HK2'|].
        left. exists i, d. auto with lia. }
  split; [done|].
  intros l [(k & d & _ & Hk & <-)|(j & t & _ & Hj & <-)]%HK2.
  - right. apply list_elem_of_fmap_2. by eapply list_elem_of_lookup_2.
  - left. apply (list_elem_of_fmap_2 (Shared.bbox ∘ Shared.base)).
    by eapply list_elem_of_lookup_2.
Qed.

(** *** Fresh detections *)

Lemma fresh_detections_spec (detections : list DetectedObject) h :
  let r := Shared.fresh_detections detections h in
  Shared.read_detected r.2 <$> r.1 = detections
  ∧ NoDup (Shared.detection_arrays r.1)
  ∧ (∀ l, l ∈ Shared.detection_arrays r.1 → (l ∉ dom h) ∧ l ∈ dom r.2)
  ∧ (∀ l, l ∈ dom h → r.2 !! l = h !! l).
Proof.
  revert h. induction detections as [|det rest IH]; intros h; simpl.
  - split_and!; [done | constructor | by intros ? ?%elem_of_nil | done].
  - set (l := fresh (dom h)).
    assert (l ∉ dom h) as Hl by apply is_fresh.
    destruct (IH (<[l := bbox det]> h)) as (Hread & Hnd & Hnew & Hold).
    set (r := Shared.fresh_detections rest _) in *.
    rewrite dom_insert_L in Hnew, Hold.
    split_and!.
    + f_equal; [|exact Hread].
      unfold Shared.read_detected, Shared.array. simpl.
      rewrite Hold by set_solver. rewrite lookup_insert_eq. simpl.
      by destruct det.
    + constructor; [|done]. intros Hin%Hnew. set_solver.
    + intros l' [->|Hin]%elem_of_cons.
      * split; [done|]. apply elem_of_dom. rewrite Hold by set_solver.
        rewrite lookup_insert_eq. eauto.
      * destruct (Hnew l' Hin). split; [set_solver | done].
    + intros l' Hl'. rewrite Hold by set_solver.
      apply lookup_insert_ne. set_solver.
Qed.

Lemma read_agree h h' this :
  (∀ l, l ∈ Shared.track_arrays (Shared.tracks this) → h' !! l = h !! l) →
  Shared.read h' this = Shared.read h this.
Proof.
  intros Hag. unfold Shared.read. f_equal. apply list_fmap_ext.
  intros j track Hj. unfold Shared.read_tracked, Shared.read_detected.
  do 2 f_equal. apply array_agree, Hag.
  apply (list_elem_of_fmap_2 (Shared.bbox ∘ Shared.base)).
  by eapply list_elem_of_lookup_2.
Qed.

Lemma update_dom rand this h dets :
  NoDup (Shared.track_arrays (Shared.tracks this)) →
  dom (Shared.update rand this h dets).2
  = list_to_set (Shared.track_arrays (Shared.tracks this)) ∪ dom h.
Proof.
  intros Hnd. unfold Shared.update. simpl.
  by destruct (predict_loop (Shared.tracks this) h 0 Hnd) as (_ & Hdom & _).
Qed.

(** Runs: a tracker on shared arrays that receives freshly built detections
    in every call returns, read from the store, what the tracker on values
    returns, and keeps its arrays unshared. *)
Lemma shared_run_reads_as_values frames this h :
  Shared.owned this h →
  let r := Shared.run this h frames in
  Shared.read r.2 r.1 = run (Shared.read h this) frames ∧ Shared.owned r.1 r.2.
Proof.
  revert this h. induction frames as [|f frames IH]; intros this h Hown; [done|].
  destruct Hown as [Hnd Hdom].
  cbn [Shared.run run foldl].
  destruct (fresh_detections_spec f.2 h) as (Hread & Hdnd & Hnew & Hold).
  set (d := Shared.fresh_detections f.2 h) in *.
  assert (Shared.unshared this d.1) as Hun.
  { apply NoDup_app. split_and!; [done | | done].
    intros l Hl%Hdom Hl'%Hnew. tauto. }
  pose proof (update_read f.1 this d.2 d.1 Hun) as Hupd.
  destruct (update_arrays f.1 this d.2 d.1 Hun) as [Hnd' Hfrom].
  pose proof (update_dom f.1 this d.2 d.1 Hnd) as Hdom'.
  set (r := Shared.update f.1 this d.2 d.1) in *.
  simpl in Hupd. rewrite Hread in Hupd.
  rewrite (read_agree h d.2 this) in Hupd by (intros l Hl; apply Hold, Hdom, Hl).
  rewrite <- Hupd. apply IH. split; [done|].
  intros l [Hl|Hl]%Hfrom; rewrite Hdom'.
  - set_solver.
  - apply elem_of_union_r. by apply Hnew.
Qed.

(** Without that discipline the two models part: when the caller passes
    the detection object a track already points to, step 1 has moved the
    detection along with the track, so the track keeps its velocity and
    drifts, where on values it would be pulled back to the detection. *)
Lemma reused_detection_drifts :
  let this := example_shared.1 in
  let h := example_shared.2 in
  let shared := Shared.update example_rand this h [example_kept] in
  let values :=
    update example_rand (Shared.read h this) [Shared.read_detected h example_kept] in
  ¬ Shared.unshared this [example_kept]
  ∧ (∃ track, tracks (Shared.read shared.2 shared.1) = [track]
       ∧ bbox0 (bbox (base track)) == 17.5 ∧ fst (velocity track) == 2.5)
  ∧ (∃ track, tracks values = [track]
       ∧ bbox0 (bbox (base track)) == 15 ∧ fst (velocity track) == 1.25).
Proof.
  split_and!.
  - unfold Shared.unshared. intros Hnd.
    apply NoDup_cons in Hnd as [Hnd _]. apply Hnd. vm_compute. constructor.
  - eexists. split; [vm_compute; reflexivity|]. by vm_compute.
  - eexists. split; [vm_compute; reflexivity|]. by vm_compute.
Qed.

End Sharing.

(** * The display colour does not influence tracking *)

Section Colour.

Implicit Types (ts : list TrackedObject) (dets : list DetectedObject).

Lemma observable_uncolor track : observable (uncolor track) = observable track.
Proof. done. Qed.

Lemma observable_fmap_uncolor ts :
  observable <$> (uncolor <$> ts) = observable <$> ts.
Proof. rewrite <- list_fmap_compose. by apply list_fmap_ext. Qed.

Lemma predicted_strip this : predicted (strip this) = uncolor <$> predicted this.
Proof.
  unfold predicted. simpl. rewrite <- !list_fmap_compose. by apply list_fmap_ext.
Qed.

Lemma score_pairs_uncolor threshold ts dets :
  score_pairs threshold (uncolor <$> ts) dets = score_pairs threshold ts dets.
Proof. unfold score_pairs, forEach. by rewrite forEach_from_fmap. Qed.

Lemma candidates_strip this dets : candidates (strip this) dets = candidates this dets.
Proof.
  unfold candidates. by rewrite predicted_strip, score_pairs_uncolor.
Qed.

Lemma accepted_strip this dets : accepted (strip this) dets = accepted this dets.
Proof. unfold accepted. by rewrite candidates_strip. Qed.

Lemma matched_track_uncolor ts dets m :
  matched_track (uncolor <$> ts) dets m = uncolor <$> matched_track ts dets m.
Proof.
  unfold matched_track. rewrite list_lookup_fmap.
  destruct (ts !! trackIdx m) as [track|]; [|done]. simpl.
  by destruct (dets !! detIdx m).
Qed.

Lemma matched_strip this dets : matched (strip this) dets = uncolor <$> matched this dets.
Proof.
  unfold matched. rewrite accepted_strip, predicted_strip, list_fmap_omap.
  apply list_omap_ext, Forall2_same_length_lookup. split; [done|].
  intros j m m' Hm Hm'. rewrite Hm in Hm'. injection Hm' as <-.
  apply matched_track_uncolor.
Qed.

Lemma aged_from_uncolor maxMissing assigned i ts :
  aged_from maxMissing assigned i (uncolor <$> ts)
  = uncolor <$> aged_from maxMissing assigned i ts.
Proof.
  revert i. induction ts as [|t ts IH]; intros i; simpl; [done|].
  rewrite fmap_app, IH. f_equal. unfold age_step.
  destruct (bool_decide (i ∈ assigned)); [done|]. simpl.
  by destruct (missingFrames t + 1 <? maxMissing)%Z.
Qed.

Lemma aged_strip this dets : aged (strip this) dets = uncolor <$> aged this dets.
Proof.
  unfold aged. rewrite accepted_strip, predicted_strip. apply aged_from_uncolor.
Qed.

(** Two spawning loops that differ in their random draws differ in colours only. *)
Lemma spawned_from_uncolor rand rand' assigned i dets next draws draws' :
  uncolor <$> spawned_from rand assigned i dets next draws
  = uncolor <$> spawned_from rand' assigned i dets next draws'.
Proof.
  revert i next draws draws'. induction dets as [|d dets IH]; intros; simpl; [done|].
  destruct (bool_decide (i ∈ assigned)); [apply IH|].
  rewrite !fmap_cons. f_equal. apply IH.
Qed.

Lemma spawned_strip rand rand' this dets :
  uncolor <$> spawned rand (strip this) dets = uncolor <$> spawned rand' this dets.
Proof. unfold spawned. rewrite accepted_strip. apply spawned_from_uncolor. Qed.

Lemma uncolor_idemp ts : uncolor <$> (uncolor <$> ts) = uncolor <$> ts.
Proof. rewrite <- list_fmap_compose. by apply list_fmap_ext. Qed.

Lemma update_strip rand rand' this dets :
  strip (update rand (strip this) dets) = strip (update rand' this dets).
Proof.
  rewrite !update_unfold, matched_strip, aged_strip.
  assert (length (spawned rand (strip this) dets) = length (spawned rand' this dets))
    as Hlen.
  { by rewrite <- (length_fmap uncolor), (spawned_strip rand rand'), length_fmap. }
  rewrite Hlen. pose proof (spawned_strip rand rand' this dets) as Hsp.
  set (sp := spawned rand (strip this) dets) in *. clearbody sp.
  unfold strip. simpl. by rewrite !fmap_app, !uncolor_idemp, Hsp.
Qed.

Lemma update_strip_eq rand1 rand2 this1 this2 dets :
  strip this1 = strip this2 →
  strip (update rand1 this1 dets) = strip (update rand2 this2 dets).
Proof.
  intros Heq.
  rewrite <- (update_strip rand1 rand1 this1), Heq.
  apply update_strip.
Qed.

Lemma strip_observed this1 this2 :
  strip this1 = strip this2 →
  observed (returned this1) = observed (returned this2).
Proof.
  intros Heq. unfold returned, observed.
  rewrite <- (observable_fmap_uncolor (tracks this1)).
  rewrite <- (observable_fmap_uncolor (tracks this2)).
  change (uncolor <$> tracks this1) with (tracks (strip this1)).
  by rewrite Heq.
Qed.

Lemma outputs_cons rand n this dets frames :
  outputs rand n this (dets :: frames)
  = returned (update (rand n) this dets)
    :: outputs rand (S n) (update (rand n) this dets) frames.
Proof. done. Qed.

Lemma outputs_strip rand1 rand2 n1 n2 this1 this2 frames :
  strip this1 = strip this2 →
  observed <$> outputs rand1 n1 this1 frames
  = observed <$> outputs rand2 n2 this2 frames.
Proof.
  revert n1 n2 this1 this2.
  induction frames as [|dets frames IH]; intros n1 n2 this1 this2 Heq; [done|].
  pose proof (update_strip_eq (rand1 n1) (rand2 n2) _ _ dets Heq) as Heq'.
  rewrite !outputs_cons, !fmap_cons.
  f_equal; [by apply strip_observed | by apply IH].
Qed.

End Colour.

(** * The end-to-end scenario *)

(** C1. A tracker built with limit 2 and threshold 0.25 is fed a box
    (10,10,20,20), then a box (15,10,20,20), then two empty frames.  The
    first call returns one track with id 1 and velocity (0,0); the second
    the same track, id 1, at (15,10,20,20) with velocity (2.5,0); the third
    the same track, id 1, with [missingFrames] 1 and box (17.5,10,20,20);
    the fourth returns the empty list.  Labels, scores and random draws are
    arbitrary. *)
Theorem end_to_end_scenario (r1 r2 r3 r4 : nat → Q) (l1 l2 : string) (c1 c2 : Q) :
  let t0 := new 2 0.25 in
  let t1 := update r1 t0 [{| bbox := mkBBox 10 10 20 20; class := l1; score := c1 |}] in
  let t2 := update r2 t1 [{| bbox := mkBBox 15 10 20 20; class := l2; score := c2 |}] in
  let t3 := update r3 t2 [] in
  let t4 := update r4 t3 [] in
  (∃ a, returned t1 = [a] ∧ id a = 1%Z ∧ velocity a = (0, 0)
        ∧ same_box (bbox (base a)) (mkBBox 10 10 20 20) ∧ missingFrames a = 0%Z)
  ∧ (∃ b, returned t2 = [b] ∧ id b = 1%Z
        ∧ same_box (bbox (base b)) (mkBBox 15 10 20 20)
        ∧ fst (velocity b) == 2.5 ∧ snd (velocity b) == 0
        ∧ missingFrames b = 0%Z)
  ∧ (∃ c, returned t3 = [c] ∧ id c = 1%Z ∧ missingFrames c = 1%Z
        ∧ same_box (bbox (base c)) (mkBBox 17.5 10 20 20)
        ∧ fst (velocity c) == 2.5 ∧ snd (velocity c) == 0)
  ∧ returned t4 = [].
Proof.
  intros t0 t1 t2 t3 t4. subst t0 t1 t2 t3 t4.
  split_and!.
  - eexists. split; [vm_compute; reflexivity|]. by vm_compute.
  - eexists. split; [vm_compute; reflexivity|]. by vm_compute.
  - eexists. split; [vm_compute; reflexivity|]. by vm_compute.
  - vm_compute. reflexivity.
Qed.

(** * Matched tracks *)

(** C2. For the [j]-th pair accepted in an [update] call, pairing the stored
    track [track] with the detection [det], the [j]-th returned track has the
    same id, velocity [v * (1 - 0.5) + measuredV * 0.5] where [measuredV] is
    the top-left corner of [det] minus the predicted position less the old
    velocity (so the new velocity is the mean of the old one and the observed
    displacement), the box, label and score of [det], and [missingFrames] 0. *)
Theorem matched_track_update (rand : nat → Q) (this : ObjectTracker)
  (detections : list DetectedObject) (j : nat) (m : Match) :
  accepted this detections !! j = Some m →
  ∃ track det track',
    tracks this !! trackIdx m = Some track
    ∧ detections !! detIdx m = Some det
    ∧ returned (update rand this detections) !! j = Some track'
    ∧ id track' = id track
    ∧ (let vx := fst (velocity track) in
       let vy := snd (velocity track) in
       let predictedX := bbox0 (bbox (base track)) + vx in
       let predictedY := bbox1 (bbox (base track)) + vy in
       let measuredVx := bbox0 (bbox det) - (predictedX - vx) in
       let measuredVy := bbox1 (bbox det) - (predictedY - vy) in
       velocity track'
       = (vx * (1 - 0.5) + measuredVx * 0.5, vy * (1 - 0.5) + measuredVy * 0.5))
    ∧ fst (velocity track')
      == (fst (velocity track) + (bbox0 (bbox det) - bbox0 (bbox (base track)))) / 2
    ∧ snd (velocity track')
      == (snd (velocity track) + (bbox1 (bbox det) - bbox1 (bbox (base track)))) / 2
    ∧ bbox (base track') = bbox det
    ∧ class (base track') = class det
    ∧ score (base track') = score det
    ∧ missingFrames track' = 0%Z.
Proof.
  intros Hj. destruct (matched_lookup this detections j m Hj)
    as (track & det & Ht & Hd & Hm).
  exists track, det, (apply_match (predict track) det).
  split_and!; try done.
  - unfold returned. rewrite update_unfold. simpl.
    rewrite lookup_app_l; [done|]. by eapply lookup_lt_Some.
  - simpl. field.
  - simpl. field.
Qed.

Lemma matched_track_update_witness :
  ∃ track',
    returned (update example_rand example_tracker [example_det2]) !! 0%nat
    = Some track'
    ∧ id track' = 1%Z
    ∧ bbox (base track') = bbox example_det2
    ∧ missingFrames track' = 0%Z.
Proof.
  destruct (matched_track_update example_rand example_tracker [example_det2]
              0 example_match)
    as (track & det & track' & Ht & Hd & Hr & Hid & _ & _ & _ & Hb & _ & _ & Hm).
  - by vm_compute.
  - exists track'. vm_compute in Ht, Hd.
    injection Ht as <-. injection Hd as <-. by split_and!.
Defined.

(** * Ageing and dropping *)

(** C3. A live track with [missingFrames] 0 that goes unmatched through [k]
    consecutive [update] calls is, for [0 < k < maxMissingFrames], in the
    list returned by the [k]-th call with [missingFrames] equal to [k]; when
    [k] equals [maxMissingFrames] it is absent from the list returned by the
    [k]-th call and from every list returned later. *)
Theorem occlusion_tolerance (this : ObjectTracker) (track : TrackedObject)
  (frames : list Frame) :
  wf this → track ∈ tracks this → missingFrames track = 0%Z →
  unmatched_run (id track) this frames →
  let k := Z.of_nat (length frames) in
  ((0 < k < maxMissingFrames this)%Z →
   ∃ track', track' ∈ returned (run this frames) ∧ id track' = id track
     ∧ missingFrames track' = k)
  ∧ ((0 < k)%Z → k = maxMissingFrames this →
     absent (id track) (run this frames)
     ∧ ∀ more, absent (id track) (run (run this frames) more)).
Proof.
  intros Hwf Hin Hzero Hun k.
  destruct (unmatched_streak frames this track Hwf Hin Hun) as [Hkeep Hdrop].
  fold k in Hkeep, Hdrop. rewrite Hzero in Hkeep, Hdrop. split.
  - intros [_ Hlt]. destruct Hkeep as (track' & ? & ? & ?); [lia|].
    exists track'. split_and!; [done..|lia].
  - intros Hpos Heq. assert (absent (id track) (run this frames)) as Hab.
    { apply Hdrop; lia. }
    split; [done|]. intros more. apply absent_run; [|done].
    destruct Hwf as (_ & _ & Hlt). rewrite Forall_forall in Hlt.
    assert (id track < nextId this)%Z as Hid.
    { apply Hlt. by apply list_elem_of_fmap_2. }
    clear -Hid. revert this Hid.
    induction frames as [|f frames IH]; intros this Hid; [done|].
    simpl. apply IH. pose proof (update_nextId_le f.1 this f.2). lia.
Qed.

Lemma occlusion_tolerance_witness :
  (∃ track', track' ∈ returned (run example_tracker [(example_rand, [])])
     ∧ id track' = 1%Z ∧ missingFrames track' = 1%Z)
  ∧ absent 1 (run example_tracker [(example_rand, []); (example_rand, [])]).
Proof.
  assert (wf example_tracker) as Hwf by (apply (bool_decide_unpack _); by vm_compute).
  assert (example_track ∈ tracks example_tracker) as Hin
    by (vm_compute; constructor).
  split.
  - destruct (occlusion_tolerance example_tracker example_track
                [(example_rand, [])] Hwf Hin eq_refl) as [Hkeep _].
    + apply (bool_decide_unpack _). by vm_compute.
    + apply Hkeep. by vm_compute.
  - destruct (occlusion_tolerance example_tracker example_track
                [(example_rand, []); (example_rand, [])] Hwf Hin eq_refl)
      as [_ Hdrop].
    + apply (bool_decide_unpack _). by vm_compute.
    + apply Hdrop; by vm_compute.
Defined.

(** * The limit on missing frames *)

(** C4, as stated, fails: with limit 2, an unmatched track whose counter is
    incremented from 1 to 2, the limit itself, is not retained. *)
Lemma retained_at_limit_counterexample :
  example_aged_track ∈ tracks example_aged
  ∧ (id example_aged_track ∉ matched_ids example_aged [])
  ∧ (missingFrames example_aged_track + 1)%Z = maxMissingFrames example_aged
  ∧ absent (id example_aged_track) (update example_rand example_aged []).
Proof.
  split_and!.
  - vm_compute. constructor.
  - apply (bool_decide_unpack _). by vm_compute.
  - by vm_compute.
  - apply (bool_decide_unpack _). by vm_compute.
Qed.

(** C4, amended. A live track is kept by an [update] call exactly when it is
    matched or its incremented [missingFrames] is strictly below
    [maxMissingFrames]: an unmatched track is returned, aged by one frame,
    if the incremented counter is below the limit, and is dropped as soon as
    the incremented counter reaches the limit. *)
Theorem retained_iff_below_limit (rand : nat → Q) (this : ObjectTracker)
  (detections : list DetectedObject) (track : TrackedObject) :
  wf this → track ∈ tracks this →
  (id track ∈ ids (returned (update rand this detections)) ↔
   id track ∈ matched_ids this detections
   ∨ (missingFrames track + 1 < maxMissingFrames this)%Z)
  ∧ ((id track ∉ matched_ids this detections) →
     (missingFrames track + 1 < maxMissingFrames this)%Z →
     miss (predict track) ∈ returned (update rand this detections))
  ∧ ((id track ∉ matched_ids this detections) →
     (maxMissingFrames this ≤ missingFrames track + 1)%Z →
     absent (id track) (update rand this detections)).
Proof.
  intros Hwf Hin. unfold returned.
  destruct (decide (id track ∈ matched_ids this detections)) as [Hm|Hun].
  - split_and!; [|done..]. split; [by left|]. intros _.
    by apply update_matched_present.
  - destruct (update_unmatched rand this detections track Hwf Hin Hun)
      as [Hkeep Hdrop].
    split_and!.
    + split.
      * intros Hpresent. right.
        destruct (Z.lt_ge_cases (missingFrames track + 1) (maxMissingFrames this))
          as [Hlt|Hge]; [done|].
        exfalso. apply Hdrop; [lia | done].
      * intros [Hm|Hlt]; [done|].
        apply (list_elem_of_fmap_2 id _ _ (Hkeep Hlt)).
    + intros _. apply Hkeep.
    + intros _ Hge. apply Hdrop. lia.
Qed.

Lemma retained_iff_below_limit_witness :
  miss (predict example_track) ∈ returned (update example_rand example_tracker []).
Proof.
  apply (retained_iff_below_limit example_rand example_tracker [] example_track).
  - apply (bool_decide_unpack _). by vm_compute.
  - vm_compute. constructor.
  - apply (bool_decide_unpack _). by vm_compute.
  - by vm_compute.
Defined.

(** * Intersection over union: the stated properties *)



(** * Association *)

(** C6. In every [update] call with N live tracks and M detections the
    association loop accepts at most [min N M] pairs, no track index and no
    detection index occurs in two accepted pairs, every accepted pair is the
    IoU of a predicted track and a detection and reaches the threshold, and
    the pairs are taken greedily in order of descending IoU: the candidates,
    among them every pair that reaches the threshold, are walked from the
    highest IoU down, and a candidate is accepted exactly when no pair
    accepted before it (each of IoU at least its own) has consumed its track
    or its detection. *)
Theorem greedy_one_to_one_matching (this : ObjectTracker)
  (detections : list DetectedObject) :
  let acc := accepted this detections in
  let walk := candidates this detections in
  associate (predicted this) detections walk
  = {| activeTracks := matched this detections;
       assignedTrackIndices := track_indices acc;
       assignedDetIndices := det_indices acc |}
  ∧ (length acc ≤ (length (tracks this)) `min` (length detections))%nat
  ∧ NoDup (trackIdx <$> acc) ∧ NoDup (detIdx <$> acc)
  ∧ (∀ m, m ∈ acc →
       ∃ track det,
         tracks this !! trackIdx m = Some track
         ∧ detections !! detIdx m = Some det
         ∧ iou m = calculateIoU (bbox (base (predict track))) (bbox det)
         ∧ iouThreshold this <= iou m)
  ∧ (∀ i j track det,
       tracks this !! i = Some track → detections !! j = Some det →
       iouThreshold this <= calculateIoU (bbox (base (predict track))) (bbox det) →
       {| trackIdx := i; detIdx := j;
          iou := calculateIoU (bbox (base (predict track))) (bbox det) |} ∈ walk)
  ∧ StronglySorted iou_desc walk
  ∧ acc `sublist_of` walk
  ∧ (∀ before m after, walk = before ++ m :: after →
       (∀ m', m' ∈ before → iou m <= iou m')
       ∧ (m ∈ acc ↔
          ∀ m', m' ∈ before → m' ∈ acc →
                trackIdx m' ≠ trackIdx m ∧ detIdx m' ≠ detIdx m)).
Proof.
  intros acc walk. subst acc walk.
  destruct (candidates_spec this detections) as (Hnd & Hall & Hsorted).
  pose proof (candidates_in_range this detections) as Hrange.
  split_and!.
  - apply associate_accepted.
  - unfold accepted. etrans; [by apply greedy_length|].
    unfold predicted. by rewrite length_map.
  - apply greedy_NoDup.
  - apply greedy_NoDup.
  - intros m Hm%greedy_elem_of. rewrite Forall_forall in Hall.
    destruct (Hall m Hm) as (track' & det & Ht & Hd & Hiou & Hthr).
    unfold predicted in Ht. rewrite list_lookup_fmap in Ht.
    destruct (tracks this !! trackIdx m) as [track|] eqn:E; [|done].
    simpl in Ht. injection Ht as <-. by exists track, det.
  - intros i j track det Hi Hj Hthr. unfold candidates.
    rewrite sort_matches_perm.
    apply (score_pairs_complete _ _ _ i j (predict track) det); [|done..].
    by rewrite predicted_lookup, Hi.
  - done.
  - apply greedy_sublist.
  - intros before m after Heq. split.
    + rewrite Heq in Hsorted. intros m' Hm'.
      apply (StronglySorted_app_1_elem_of iou_desc before (m :: after)); [done..|].
      by left.
    + unfold accepted. rewrite Heq in Hnd |- *.
      destruct (greedy_middle ∅ ∅ before m after Hnd) as [Hbefore ->].
      rewrite consumed_false. split.
      * intros [Ht Hd] m' Hb Hacc. specialize (Hbefore m' Hb Hacc).
        split; intros Heq'.
        -- apply Ht. apply elem_of_union_l, elem_of_track_indices. eauto.
        -- apply Hd. apply elem_of_union_l, elem_of_det_indices. eauto.
      * intros Hno. split.
        -- intros [(m' & Hm' & Heq')%elem_of_track_indices|?]%elem_of_union;
             [|set_solver].
           assert (m' ∈ before) as Hb by by apply greedy_elem_of in Hm'.
           destruct (Hno m' Hb) as [Hne _]; [|done].
           rewrite greedy_app. apply elem_of_app. by left.
        -- intros [(m' & Hm' & Heq')%elem_of_det_indices|?]%elem_of_union;
             [|set_solver].
           assert (m' ∈ before) as Hb by by apply greedy_elem_of in Hm'.
           destruct (Hno m' Hb) as [_ Hne]; [|done].
           rewrite greedy_app. apply elem_of_app. by left.
Qed.

(** * Identities *)

(** C7, as stated, fails across a [reset]: the call after it hands out id 1
    again, so the ids handed out over the lifetime of the instance are not
    strictly increasing. *)
Lemma ids_never_reused_counterexample :
  assigned_ever new_default example_calls = [1; 1]%Z
  ∧ ¬ StronglySorted Z.lt (assigned_ever new_default example_calls).
Proof.
  assert (assigned_ever new_default example_calls = [1; 1]%Z) as Heq
    by by vm_compute.
  split; [done|]. rewrite Heq. intros Hs.
  apply StronglySorted_inv in Hs as [_ Hlt].
  apply Forall_inv in Hlt. lia.
Qed.

(** C7, amended. After any sequence of [update] and [reset] calls on a new
    tracker, every live id is positive, the live ids are pairwise distinct,
    and the ids handed out since construction or the most recent [reset] are
    positive and strictly increasing in the order of their assignment: each
    new track gets an id greater than every id assigned before it since that
    point, and none of these is reused. *)
Theorem ids_unique_increasing (maxMissing : Z) (threshold : Q) (cs : list Call) :
  let this := calls (new maxMissing threshold) cs in
  let since := assigned_since_reset [] (new maxMissing threshold) cs in
  Forall (λ i, (0 < i)%Z) (ids (tracks this))
  ∧ NoDup (ids (tracks this))
  ∧ Forall (λ i, (0 < i)%Z) since
  ∧ StronglySorted Z.lt since
  ∧ Forall (λ i, (i < nextId this)%Z) (ids (tracks this) ++ since).
Proof.
  intros this since.
  destruct (calls_invariant cs (new maxMissing threshold) [])
    as ((Hpos & Hnd & Hlive) & Hsorted & Hsince);
    [apply new_wf | constructor | constructor |].
  fold this in Hpos, Hnd, Hlive, Hsince. fold since in Hsorted, Hsince.
  split_and!.
  - eapply Forall_impl; [exact Hlive|]. simpl. lia.
  - done.
  - eapply Forall_impl; [exact Hsince|]. simpl. lia.
  - done.
  - apply Forall_app. split.
    + eapply Forall_impl; [exact Hlive|]. simpl. lia.
    + eapply Forall_impl; [exact Hsince|]. simpl. lia.
Qed.

(** * Determinism *)


(** * Reset *)

(** C9. [reset] leaves the tracker in the state of a newly constructed one
    with the same configuration: no live track, counter 1, configuration
    unchanged.  The next [update] with a non-empty detection list gives id 1
    to its first new track, and from then on the tracker returns what a new
    tracker returns, up to the display colours. *)
Theorem reset_as_new (this : ObjectTracker) :
  reset this = new (maxMissingFrames this) (iouThreshold this)
  ∧ tracks (reset this) = []
  ∧ nextId (reset this) = 1%Z
  ∧ maxMissingFrames (reset this) = maxMissingFrames this
  ∧ iouThreshold (reset this) = iouThreshold this
  ∧ (∀ rand det detections,
       ∃ track rest,
         returned (update rand (reset this) (det :: detections)) = track :: rest
         ∧ id track = 1%Z ∧ base track = det
         ∧ velocity track = (0, 0) ∧ missingFrames track = 0%Z)
  ∧ (∀ rand1 rand2 frames,
       observed <$> outputs rand1 0 (reset this) frames
       = observed <$> outputs rand2 0
           (new (maxMissingFrames this) (iouThreshold this)) frames).
Proof.
  split_and!; try done.
  - intros rand det detections. unfold returned. rewrite update_unfold.
    assert (accepted (reset this) (det :: detections) = []) as Hacc by done.
    unfold matched, aged, spawned. rewrite Hacc. simpl.
    rewrite bool_decide_eq_false_2 by set_solver. eauto 10.
  - intros. by apply outputs_strip.
Qed.

(** * Division by zero *)


(** * Further properties of the tracker *)

Section Colours.

Lemma getRandomColor_index (r : Q) :
  getRandomColor r
  = if (Qfloor (r * 6) <? 0)%Z then None else colors !! Z.to_nat (Qfloor (r * 6)).
Proof. done. Qed.

Lemma getRandomColor_in_palette (r : Q) :
  0 <= r → r < 1 → ∃ c, getRandomColor r = Some c ∧ c ∈ colors.
Proof.
  intros H0 H1. rewrite getRandomColor_index. set (f := Qfloor (r * 6)).
  pose proof (Qfloor_le (r * 6)) as Hlo. pose proof (Qlt_floor (r * 6)) as Hhi.
  fold f in Hlo, Hhi.
  assert (0 ≤ f < 6)%Z as [Hf0 Hf6].
  { assert (0 < f + 1)%Z by (rewrite Zlt_Qlt; change (inject_Z 0) with 0; lra).
    assert (f < 6)%Z by (rewrite Zlt_Qlt; change (inject_Z 6) with 6; lra).
    lia. }
  destruct (Z.ltb_spec f 0) as [|_]; [lia|].
  destruct (colors !! Z.to_nat f) as [c|] eqn:E.
  - exists c. split; [done|]. by eapply list_elem_of_lookup_2.
  - apply lookup_ge_None in E. change (length colors) with 6%nat in E. lia.
Qed.

(** X1. [getRandomColor] returns a colour exactly when the number drawn
    lies in [0, 1), as [Math.random] guarantees, and the colour is then one
    of the six of the palette; outside that interval it reads past the
    palette and returns nothing. *)
Theorem getRandomColor_palette (r : Q) :
  (∃ c, getRandomColor r = Some c ∧ c ∈ colors) ↔ 0 <= r ∧ r < 1.
Proof.
  split; [|intros [H0 H1]; by apply getRandomColor_in_palette].
  rewrite getRandomColor_index. set (f := Qfloor (r * 6)).
  pose proof (Qfloor_le (r * 6)) as Hlo. pose proof (Qlt_floor (r * 6)) as Hhi.
  fold f in Hlo, Hhi.
  intros (c & Hc & _). destruct (Z.ltb_spec f 0) as [|Hpos]; [done|].
  apply lookup_lt_Some in Hc. change (length colors) with 6%nat in Hc.
  assert (inject_Z 0 <= inject_Z f) as H0 by (rewrite <- Zle_Qle; lia).
  assert (inject_Z (f + 1) <= inject_Z 6) as H6 by (rewrite <- Zle_Qle; lia).
  change (inject_Z 0) with 0 in H0. change (inject_Z 6) with 6 in H6.
  split; lra.
Qed.

End Colours.

Section Lifetime.

Lemma elem_of_spawned_from rand assigned i dets next draws track :
  track ∈ spawned_from rand assigned i dets next draws →
  ∃ j det k,
    dets !! j = Some det ∧ ((i + j)%nat ∉ assigned)
    ∧ track = {| base := det; id := id track; missingFrames := 0;
                 color := getRandomColor (rand k); velocity := (0, 0) |}.
Proof.
  revert i next draws. induction dets as [|d dets IH]; intros i next draws; simpl.
  - by intros ?%elem_of_nil.
  - destruct (bool_decide (i ∈ assigned)) eqn:E.
    + intros (j & det & k & Hj & Hna & Heq)%IH.
      exists (S j), det, k. by rewrite Nat.add_succ_r.
    + apply bool_decide_eq_false in E.
      intros [->|(j & det & k & Hj & Hna & Heq)%IH]%elem_of_cons.
      * exists 0%nat, d, draws. by rewrite Nat.add_0_r.
      * exists (S j), det, k. by rewrite Nat.add_succ_r.
Qed.

Lemma calls_snoc this cs c : calls this (cs ++ [c]) = call (calls this cs) c.
Proof. unfold calls. by rewrite foldl_app. Qed.

Lemma calls_config maxMissing threshold cs :
  maxMissingFrames (calls (new maxMissing threshold) cs) = maxMissing
  ∧ iouThreshold (calls (new maxMissing threshold) cs) = threshold.
Proof.
  induction cs as [|c cs IH] using rev_ind; [done|].
  rewrite calls_snoc. destruct c as [rand dets|]; cbn [call]; [|done].
  by rewrite update_unfold.
Qed.

(** X2. When [Math.random] stays in [0, 1), every live track of a tracker,
    after any sequence of [update] and [reset] calls, carries one of the six
    palette colours: [color] is never [undefined]. *)
Theorem live_tracks_painted (maxMissing : Z) (threshold : Q) (cs : list Call) :
  draws_in_unit_interval cs →
  Forall painted (tracks (calls (new maxMissing threshold) cs)).
Proof.
  induction cs as [|c cs IH] using rev_ind; intros Hcs; [constructor|].
  apply Forall_app in Hcs as [Hcs Hc]. apply Forall_inv in Hc.
  specialize (IH Hcs). rewrite calls_snoc.
  destruct c as [rand dets|]; cbn [call]; [|constructor].
  set (this := calls _ cs) in *. rewrite Forall_forall in IH.
  apply Forall_forall. intros track [Hm|[Ha|Hs]]%elem_of_update.
  - apply elem_of_matched in Hm as (m & t & d & _ & Ht & _ & ->).
    by apply list_elem_of_lookup_2, IH in Ht.
  - apply elem_of_aged in Ha as (j & t & Ht & _ & _ & ->).
    by apply list_elem_of_lookup_2, IH in Ht.
  - apply elem_of_spawned_from in Hs as (j & det & k & _ & _ & ->).
    destruct (Hc k). by apply getRandomColor_in_palette.
Qed.

Lemma live_tracks_painted_witness :
  Forall painted (tracks (calls new_default example_calls)).
Proof.
  apply live_tracks_painted.
  assert (unit_interval example_rand) as Hu by (intros k; split; by vm_compute).
  unfold draws_in_unit_interval, example_calls. by repeat constructor.
Defined.

(** X3. A track keeps its display colour for life: a track returned by
    [update] under the id of a track that was live before the call has that
    track's colour, matched or not. *)
Theorem colour_kept (rand : nat → Q) (this : ObjectTracker)
  (detections : list DetectedObject) (track track' : TrackedObject) :
  wf this → track ∈ tracks this →
  track' ∈ returned (update rand this detections) → id track' = id track →
  color track' = color track.
Proof.
  intros (Hpos & Hnd & Hlt) [j Hj]%list_elem_of_lookup Hin Hid.
  rewrite Forall_forall in Hlt.
  apply elem_of_update in Hin as [Hm|[Ha|Hs]].
  - apply elem_of_matched in Hm as (m & t & d & _ & Ht & _ & ->). simpl in *.
    assert (trackIdx m = j) as <- by by eapply (ids_lookup_inj (tracks this)).
    congruence.
  - apply elem_of_aged in Ha as (j' & t & Ht & _ & _ & ->). simpl in *.
    assert (j' = j) as -> by by eapply (ids_lookup_inj (tracks this)).
    congruence.
  - assert (id track' ∈ ids (spawned rand this detections)) as Hs'
      by by apply list_elem_of_fmap_2.
    apply elem_of_ids_spawned in Hs'.
    assert (id track ∈ ids (tracks this)) as Hin'.
    { apply list_elem_of_fmap_2. by eapply list_elem_of_lookup_2. }
    apply Hlt in Hin'. lia.
Qed.

Lemma colour_kept_witness :
  color (miss (predict example_track)) = color example_track.
Proof.
  apply (colour_kept example_rand example_tracker [] example_track).
  - apply (bool_decide_unpack _). by vm_compute.
  - vm_compute. constructor.
  - vm_compute. constructor.
  - reflexivity.
Defined.

(** X4. After any sequence of [update] and [reset] calls the staleness
    counter of every live track is a non-negative integer, and is below
    [maxMissingFrames] unless it is 0: no returned track has been missing
    for as many frames as the limit. *)
Theorem live_tracks_fresh_enough (maxMissing : Z) (threshold : Q) (cs : list Call) :
  Forall (fresh_enough maxMissing) (tracks (calls (new maxMissing threshold) cs)).
Proof.
  induction cs as [|c cs IH] using rev_ind; [constructor|].
  rewrite calls_snoc. destruct c as [rand dets|]; cbn [call]; [|constructor].
  destruct (calls_config maxMissing threshold cs) as [Hmax _].
  set (this := calls _ cs) in *. rewrite Forall_forall in IH.
  apply Forall_forall. intros track [Hm|[Ha|Hs]]%elem_of_update.
  - apply elem_of_matched in Hm as (m & t & d & _ & Ht & _ & ->).
    split; simpl; [lia | by left].
  - apply elem_of_aged in Ha as (j & t & Ht & _ & Hlim & ->).
    apply list_elem_of_lookup_2, IH in Ht as [Hge _].
    rewrite Hmax in Hlim. split; simpl; [lia | by right].
  - apply elem_of_spawned_from in Hs as (j & det & k & _ & _ & ->).
    split; simpl; [lia | by left].
Qed.

(** X5. Identifiers are handed out without gaps: the ids assigned since
    construction or the last [reset] are 1, 2, ..., n in this order, and the
    counter stands at n + 1. *)
Theorem ids_consecutive (maxMissing : Z) (threshold : Q) (cs : list Call) :
  let since := assigned_since_reset [] (new maxMissing threshold) cs in
  since = Z.of_nat <$> seq 1 (length since)
  ∧ nextId (calls (new maxMissing threshold) cs) = (1 + Z.of_nat (length since))%Z.
Proof.
  intros since. subst since.
  assert (∀ this earlier,
    earlier = Z.of_nat <$> seq 1 (length earlier) →
    nextId this = (1 + Z.of_nat (length earlier))%Z →
    let since := assigned_since_reset earlier this cs in
    since = Z.of_nat <$> seq 1 (length since)
    ∧ nextId (calls this cs) = (1 + Z.of_nat (length since))%Z) as Hgen.
  { induction cs as [|c cs IH]; intros this earlier He Hn; [done|].
    destruct c as [rand dets|]; simpl.
    - apply IH.
      + rewrite length_app, seq_app, fmap_app, <- He. f_equal.
        replace (length (ids (spawned rand this dets)))
          with (length (spawned rand this dets)) by (unfold ids; by rewrite length_fmap).
        unfold spawned. rewrite ids_spawned_from.
        set (n := length (spawned_from _ _ _ _ _ _)).
        replace (1 + length earlier)%nat with ((1 + length earlier) + 0)%nat by lia.
        rewrite <- fmap_add_seq, <- list_fmap_compose.
        apply list_fmap_ext. intros _ k _. simpl. lia.
      + rewrite update_nextId, length_app. unfold ids. rewrite length_fmap. lia.
    - by apply IH. }
  by apply Hgen.
Qed.

End Lifetime.

(** * Further properties of the association *)

Section Maximality.

Lemma accepted_candidate this dets m :
  m ∈ candidates this dets →
  trackIdx m ∈ track_indices (accepted this dets)
  ∨ detIdx m ∈ det_indices (accepted this dets).
Proof.
  intros (before & after & Heq)%list_elem_of_split.
  destruct (candidates_spec this dets) as (Hnd & _ & _).
  unfold accepted. rewrite Heq in Hnd |- *.
  destruct (greedy_middle ∅ ∅ before m after Hnd) as [_ Hm].
  destruct (consumed m (track_indices (greedy ∅ ∅ before) ∪ ∅)
              (det_indices (greedy ∅ ∅ before) ∪ ∅)) eqn:E.
  - rewrite greedy_app.
    apply consumed_true in E as [Ht|Hd].
    + apply elem_of_union in Ht as [Ht|Ht]; [|by apply not_elem_of_empty in Ht].
      left. apply elem_of_track_indices in Ht as (m' & Hm' & Hidx).
      apply elem_of_track_indices. exists m'. split; [|done].
      apply elem_of_app. by left.
    + apply elem_of_union in Hd as [Hd|Hd]; [|by apply not_elem_of_empty in Hd].
      right. apply elem_of_det_indices in Hd as (m' & Hm' & Hidx).
      apply elem_of_det_indices. exists m'. split; [|done].
      apply elem_of_app. by left.
  - left. apply elem_of_track_indices. exists m. split; [|done]. by apply Hm.
Qed.

(** X6. The association is maximal: whenever the predicted box of a live
    track and a detection reach the threshold, the loop consumes the track
    or the detection.  A track never ages while a detection that could have
    taken it starts a new track. *)
Theorem association_maximal (this : ObjectTracker)
  (detections : list DetectedObject) (i j : nat)
  (track : TrackedObject) (det : DetectedObject) :
  tracks this !! i = Some track → detections !! j = Some det →
  iouThreshold this <= calculateIoU (bbox (base (predict track))) (bbox det) →
  i ∈ assignedTrackIndices
        (associate (predicted this) detections (candidates this detections))
  ∨ j ∈ assignedDetIndices
        (associate (predicted this) detections (candidates this detections)).
Proof.
  intros Hi Hj Hthr. rewrite associate_accepted. simpl.
  apply (accepted_candidate this detections
    {| trackIdx := i; detIdx := j;
       iou := calculateIoU (bbox (base (predict track))) (bbox det) |}).
  unfold candidates. rewrite sort_matches_perm.
  apply (score_pairs_complete _ _ _ i j (predict track) det); [|done..].
  by rewrite predicted_lookup, Hi.
Qed.

Lemma association_maximal_witness :
  0%nat ∈ assignedTrackIndices
        (associate (predicted example_tracker) [example_det2]
           (candidates example_tracker [example_det2]))
  ∨ 0%nat ∈ assignedDetIndices
        (associate (predicted example_tracker) [example_det2]
           (candidates example_tracker [example_det2])).
Proof.
  apply (association_maximal example_tracker [example_det2] 0 0
           example_track example_det2).
  - by vm_compute.
  - reflexivity.
  - by vm_compute.
Defined.

End Maximality.

Section Conservation.

Lemma length_spawned_from rand assigned i dets next draws :
  length (spawned_from rand assigned i dets next draws)
  = length (filter (λ k, k ∉ assigned) (seq i (length dets))).
Proof.
  revert i next draws. induction dets as [|d dets IH]; intros i next draws; [done|].
  simpl. rewrite filter_cons.
  destruct (bool_decide (i ∈ assigned)) eqn:E.
  - apply bool_decide_eq_true in E. rewrite decide_False by auto. apply IH.
  - apply bool_decide_eq_false in E. rewrite decide_True by done.
    simpl. by rewrite IH.
Qed.

Lemma length_aged_from maxMissing assigned i ts :
  (length (aged_from maxMissing assigned i ts)
   ≤ length (filter (λ k, k ∉ assigned) (seq i (length ts))))%nat.
Proof.
  revert i. induction ts as [|t ts IH]; intros i; [done|].
  simpl. rewrite filter_cons, length_app. specialize (IH (S i)).
  unfold age_step. destruct (bool_decide (i ∈ assigned)) eqn:E.
  - apply bool_decide_eq_true in E. rewrite decide_False by auto. simpl. lia.
  - apply bool_decide_eq_false in E. rewrite decide_True by done.
    destruct (_ <? _)%Z; simpl; lia.
Qed.

(** Distinct indices below [n]: they and the indices outside them make up
    the [n] indices. *)
Lemma length_indices_complement (ks : list nat) (n : nat) :
  NoDup ks → (∀ k, k ∈ ks → (k < n)%nat) →
  (length ks
   + length (filter (λ k, k ∉ (list_to_set ks : gset nat)) (seq 0 n)))%nat = n.
Proof.
  intros Hnd Hlt. set (S := list_to_set ks : gset nat).
  assert (ks ≡ₚ filter (λ k, k ∈ S) (seq 0 n)) as ->.
  { apply NoDup_Permutation; [done | apply NoDup_filter, NoDup_seq |].
    intros k. rewrite list_elem_of_filter, elem_of_seq. unfold S.
    rewrite elem_of_list_to_set. split; [|tauto].
    intros Hk. split; [done|]. specialize (Hlt k Hk). lia. }
  rewrite <- length_app, filter_app_complement. apply length_seq.
Qed.

Lemma spawned_from_contains rand assigned i dets next draws j det :
  dets !! j = Some det → ((i + j)%nat ∉ assigned) →
  ∃ track, track ∈ spawned_from rand assigned i dets next draws
    ∧ base track = det ∧ velocity track = (0, 0) ∧ missingFrames track = 0%Z.
Proof.
  revert i j next draws.
  induction dets as [|d dets IH]; intros i j next draws Hj Hna; [done|].
  simpl. destruct j as [|j]; simpl in Hj.
  - injection Hj as ->. rewrite Nat.add_0_r in Hna.
    rewrite bool_decide_eq_false_2 by done.
    eexists. split; [by left|]. done.
  - rewrite Nat.add_succ_r in Hna.
    destruct (bool_decide (i ∈ assigned)).
    + apply (IH (S i) j next draws Hj Hna).
    + destruct (IH (S i) j (next + 1)%Z (S draws) Hj Hna) as (track & Hin & ?).
      exists track. split; [by right | done].
Qed.

(** X7. No detection is lost and none is counted twice: the tracks an
    [update] call returns are the surviving unmatched tracks plus exactly
    one track per detection, matched or new, and each detection is the box,
    label and score of a returned track with [missingFrames] 0.  Matched
    and surviving tracks together are at most the tracks that were live. *)
Theorem detections_conserved (rand : nat → Q) (this : ObjectTracker)
  (detections : list DetectedObject) :
  returned (update rand this detections)
  = matched this detections ++ aged this detections ++ spawned rand this detections
  ∧ (length (matched this detections) + length (spawned rand this detections))%nat
    = length detections
  ∧ length (returned (update rand this detections))
    = (length (aged this detections) + length detections)%nat
  ∧ (length (matched this detections) + length (aged this detections)
     ≤ length (tracks this))%nat
  ∧ (∀ j det, detections !! j = Some det →
       ∃ track, track ∈ returned (update rand this detections)
         ∧ bbox (base track) = bbox det ∧ class (base track) = class det
         ∧ score (base track) = score det ∧ missingFrames track = 0%Z).
Proof.
  pose proof (accepted_in_range this detections) as Hr. rewrite Forall_forall in Hr.
  destruct (greedy_NoDup ∅ ∅ (candidates this detections)) as [HndT HndD].
  fold (accepted this detections) in HndT, HndD.
  assert ((length (matched this detections)
           + length (spawned rand this detections))%nat = length detections) as Hdet.
  { rewrite length_matched. unfold spawned. rewrite length_spawned_from.
    rewrite <- (length_fmap detIdx). apply length_indices_complement; [done|].
    intros k (m & -> & Hm)%list_elem_of_fmap. by apply Hr. }
  assert ((length (matched this detections) + length (aged this detections)
           ≤ length (tracks this))%nat) as Htr.
  { rewrite length_matched. unfold aged.
    pose proof (length_aged_from (maxMissingFrames this)
      (track_indices (accepted this detections)) 0 (predicted this)) as Hle.
    pose proof (length_indices_complement (trackIdx <$> accepted this detections)
      (length (predicted this)) HndT) as Hsum.
    rewrite length_fmap in Hsum. unfold track_indices in Hle.
    rewrite <- (length_map predict (tracks this)). fold (predicted this).
    unfold track_indices. specialize (Hsum ltac:(
      intros k (m & -> & Hm)%list_elem_of_fmap; by apply Hr)).
    lia. }
  split_and!; [by rewrite update_unfold | done | | done |].
  - unfold returned. rewrite update_unfold. simpl. rewrite !length_app. lia.
  - intros j det Hj.
    destruct (decide (j ∈ det_indices (accepted this detections))) as [Hin|Hout].
    + apply elem_of_det_indices in Hin as (m & Hm & <-).
      apply list_elem_of_lookup in Hm as [k Hk].
      destruct (matched_lookup this detections k m Hk) as (t & d & _ & Hd & Hmk).
      assert (d = det) as -> by congruence.
      exists (apply_match (predict t) det). split; [|done].
      apply elem_of_update. left. by eapply list_elem_of_lookup_2.
    + destruct (spawned_from_contains rand (det_indices (accepted this detections))
                  0 detections (nextId this) 0 j det Hj Hout)
        as (track & Hin & Hb & _ & Hm).
      exists track. split; [|by rewrite Hb].
      apply elem_of_update. by right; right.
Qed.

End Conservation.

(** * Coasting *)

Section Coasting.






End Coasting.

(** * The threshold *)

Section Threshold.

Lemma calculateIoU_pos_overlap a b :
  0 < calculateIoU a b →
  0 < bbox2 a ∧ 0 < bbox3 a ∧ 0 < bbox2 b ∧ 0 < bbox3 b
  ∧ 0 < intersectionArea a b.
Proof.
  intros Hpos. destruct (no_intersection a b) eqn:E.
  - rewrite calculateIoU_no_overlap in Hpos by done. lra.
  - destruct (overlap_inv a b E) as [Hx Hy].
    destruct (width_bounds a b) as [Hwa Hwb].
    destruct (height_bounds a b) as [Hha Hhb].
    destruct (intersection_bounds a b E) as (Hi & _ & _).
    split_and!; [lra.. | done].
Qed.

(** X9. With a positive threshold only boxes that really overlap are
    paired: a track or a detection whose box has no positive width and
    height is never consumed by the association.  Such a detection starts a
    new track in every call that receives it. *)
Theorem flat_boxes_never_match (rand : nat → Q) (this : ObjectTracker)
  (detections : list DetectedObject) :
  0 < iouThreshold this →
  (∀ m, m ∈ accepted this detections →
     ∃ track det,
       tracks this !! trackIdx m = Some track
       ∧ detections !! detIdx m = Some det
       ∧ 0 < intersectionArea (bbox (base (predict track))) (bbox det)
       ∧ ¬ flat (bbox (base track)) ∧ ¬ flat (bbox det))
  ∧ (∀ i track, tracks this !! i = Some track → flat (bbox (base track)) →
       i ∉ assignedTrackIndices
             (associate (predicted this) detections (candidates this detections)))
  ∧ (∀ j det, detections !! j = Some det → flat (bbox det) →
       (j ∉ assignedDetIndices
              (associate (predicted this) detections (candidates this detections)))
       ∧ ∃ track, track ∈ spawned rand this detections ∧ base track = det).
Proof.
  intros Hthr. rewrite associate_accepted. simpl.
  assert (∀ m, m ∈ accepted this detections →
     ∃ track det,
       tracks this !! trackIdx m = Some track
       ∧ detections !! detIdx m = Some det
       ∧ 0 < intersectionArea (bbox (base (predict track))) (bbox det)
       ∧ ¬ flat (bbox (base track)) ∧ ¬ flat (bbox det)) as Hacc.
  { intros m Hm%greedy_elem_of.
    destruct (candidates_spec this detections) as (_ & Hall & _).
    rewrite Forall_forall in Hall.
    destruct (Hall m Hm) as (track' & det & Ht & Hd & Hiou & Hge).
    rewrite predicted_lookup in Ht.
    destruct (tracks this !! trackIdx m) as [track|] eqn:E; [|done].
    simpl in Ht. injection Ht as <-.
    destruct (calculateIoU_pos_overlap (bbox (base (predict track))) (bbox det))
      as (Hw & Hh & Hw' & Hh' & Hi); [rewrite <- Hiou; lra|].
    exists track, det. unfold flat. simpl in Hw, Hh. split_and!; tauto. }
  split_and!; [done | |].
  - intros i track Hi Hflat (m & Hm & <-)%elem_of_track_indices.
    destruct (Hacc m Hm) as (track' & det & Ht & _ & _ & Hnf & _).
    rewrite Hi in Ht. injection Ht as <-. done.
  - intros j det Hj Hflat.
    assert (j ∉ det_indices (accepted this detections)) as Hout.
    { intros (m & Hm & <-)%elem_of_det_indices.
      destruct (Hacc m Hm) as (track & det' & _ & Hd & _ & _ & Hnf).
      rewrite Hj in Hd. injection Hd as <-. done. }
    split; [done|].
    destruct (spawned_from_contains rand (det_indices (accepted this detections))
                0 detections (nextId this) 0 j det Hj Hout) as (track & ? & ? & _).
    by exists track.
Qed.

Lemma flat_boxes_never_match_witness :
  ∃ track, track ∈ spawned example_rand example_flat_tracker [example_flat_det]
    ∧ base track = example_flat_det.
Proof.
  destruct (flat_boxes_never_match example_rand example_flat_tracker
              [example_flat_det]) as (_ & _ & Hdet); [by vm_compute|].
  apply (Hdet 0%nat example_flat_det); [reflexivity|].
  unfold flat. intros [Hw _]. by vm_compute in Hw.
Defined.



End Threshold.

(** * Geometry of the IoU *)

Section Geometry.

Implicit Types a b : BBox.






End Geometry.

(** * Following one object *)

Section Following.





End Following.


(** * The dashboard *)

Section Filters.

Import Dashboard.

Lemma toggleFilter_elem prev cls c :
  c ∈ toggleFilter prev cls ↔ (if decide (c = cls) then c ∉ prev else c ∈ prev).
Proof.
  unfold toggleFilter. destruct (decide (c = cls)) as [->|Hne].
  - destruct (bool_decide (cls ∈ prev)) eqn:E.
    + apply bool_decide_eq_true in E. rewrite list_elem_of_filter. tauto.
    + apply bool_decide_eq_false in E. rewrite elem_of_app, list_elem_of_singleton.
      tauto.
  - destruct (bool_decide (cls ∈ prev)) eqn:E.
    + rewrite list_elem_of_filter. tauto.
    + rewrite elem_of_app, list_elem_of_singleton. tauto.
Qed.

Lemma toggleFilter_NoDup prev cls : NoDup prev → NoDup (toggleFilter prev cls).
Proof.
  intros Hnd. unfold toggleFilter. destruct (bool_decide (cls ∈ prev)) eqn:E.
  - by apply NoDup_filter.
  - apply bool_decide_eq_false in E. apply NoDup_app. split_and!; [done | | apply NoDup_singleton].
    intros c Hc ->%list_elem_of_singleton. contradiction.
Qed.

Lemma clicked_snoc clicks cls :
  clicked (clicks ++ [cls]) = toggleFilter (clicked clicks) cls.
Proof. unfold clicked. by rewrite foldl_app. Qed.

(** X14. The class filter is a set of toggles: after any series of clicks
    the list of active filters has no duplicates, and a class is active
    exactly when it has been clicked an odd number of times; a click changes
    the state of no other class. *)
Theorem filter_toggles (clicks : list string) (cls : string) :
  NoDup (clicked clicks)
  ∧ (cls ∈ clicked clicks ↔ Nat.odd (length (filter (λ c, c = cls) clicks)) = true)
  ∧ (∀ c, c ≠ cls → (c ∈ clicked (clicks ++ [cls]) ↔ c ∈ clicked clicks)).
Proof.
  split_and!.
  - induction clicks as [|c clicks IH] using rev_ind; [constructor|].
    rewrite clicked_snoc. by apply toggleFilter_NoDup.
  - induction clicks as [|c clicks IH] using rev_ind.
    + simpl. split; [by intros ?%elem_of_nil | done].
    + rewrite clicked_snoc, toggleFilter_elem, filter_app, length_app.
      rewrite filter_cons, filter_nil.
      destruct (decide (cls = c)) as [->|Hne].
      * rewrite decide_True by done. simpl length.
        rewrite Nat.add_1_r, Nat.odd_succ, <- Nat.negb_odd.
        rewrite IH. by destruct (Nat.odd _).
      * rewrite decide_False by auto. simpl length. by rewrite Nat.add_0_r.
  - intros c Hne. rewrite clicked_snoc, toggleFilter_elem.
    by rewrite decide_False.
Qed.

(** X15. The objects drawn are the returned tracks in their order, all of
    them while no filter is active and otherwise those whose label is an
    active filter; the tracks of a tracker reached by any calls keep
    distinct ids among the visible ones, and the object count is at most the
    number of returned tracks. *)
Theorem visible_objects (maxMissing : Z) (threshold : Q) (cs : list Call)
  (activeFilters : list string) :
  let trackedObjects := returned (calls (new maxMissing threshold) cs) in
  let visible := visibleObjects activeFilters trackedObjects in
  visible `sublist_of` trackedObjects
  ∧ (∀ obj, obj ∈ visible ↔
       obj ∈ trackedObjects
       ∧ (activeFilters = [] ∨ class (base obj) ∈ activeFilters))
  ∧ NoDup (ids visible)
  ∧ (objectCount activeFilters trackedObjects ≤ length trackedObjects)%nat
  ∧ (activeFilters = [] → visible = trackedObjects).
Proof.
  intros trackedObjects visible.
  assert (visible `sublist_of` trackedObjects) as Hsub.
  { subst visible. unfold visibleObjects. destruct (0 <? _)%nat; [|done].
    apply sublist_filter. }
  split_and!.
  - done.
  - intros obj. subst visible. unfold visibleObjects.
    destruct activeFilters as [|f fs]; simpl.
    + split; [by auto | by intros [? _]].
    + rewrite list_elem_of_filter. split.
      * intros [? ?]. by auto.
      * intros [? [?|?]]; [done | by auto].
  - destruct (calls_wf maxMissing threshold cs) as (_ & Hnd & _).
    apply (sublist_NoDup _ (ids trackedObjects)); [done|].
    unfold ids. by apply fmap_sublist.
  - unfold objectCount. by apply sublist_length.
  - by intros ->.
Qed.



End Filters.

Section FrameRate.

Import Dashboard.





End FrameRate.

(** * Empty inputs *)

Section Edges.

Lemma accepted_no_detections this : accepted this [] = [].
Proof.
  assert (length (accepted this []) ≤ 0)%nat as Hlen.
  { etrans; [apply (greedy_length (predicted this) []), candidates_in_range|].
    simpl. lia. }
  destruct (accepted this []); [done | simpl in Hlen; lia].
Qed.

Lemma aged_from_no_match maxMissing i ts :
  aged_from maxMissing ∅ i ts
  = miss <$> filter (λ t, (missingFrames t + 1 < maxMissing)%Z) ts.
Proof.
  revert i. induction ts as [|t ts IH]; intros i; [done|].
  simpl. rewrite IH, filter_cons. unfold age_step.
  rewrite bool_decide_eq_false_2 by set_solver. simpl.
  destruct (Z.ltb_spec (missingFrames t + 1) maxMissing).
  - by rewrite decide_True.
  - by rewrite decide_False by lia.
Qed.

(** X18. A frame without detections is no error: every live track is
    advanced by its velocity and aged by one frame, those whose counter
    stays below the limit are returned in their order, and no id is
    assigned. *)
Theorem update_without_detections (rand : nat → Q) (this : ObjectTracker) :
  update rand this []
  = {| nextId := nextId this;
       tracks :=
         (λ t, miss (predict t))
           <$> filter (λ t, (missingFrames t + 1 < maxMissingFrames this)%Z)
                 (tracks this);
       maxMissingFrames := maxMissingFrames this;
       iouThreshold := iouThreshold this |}.
Proof.
  rewrite update_unfold. unfold matched, aged, spawned.
  rewrite accepted_no_detections. simpl.
  change (track_indices []) with (∅ : gset nat).
  rewrite aged_from_no_match. unfold predicted.
  f_equal; [lia|]. rewrite app_nil_r.
  induction (tracks this) as [|t ts IH]; [done|].
  change (map predict ts) with (predict <$> ts) in IH.
  change (map predict (t :: ts)) with (predict t :: (predict <$> ts)).
  rewrite !filter_cons.
  change (missingFrames (predict t)) with (missingFrames t).
  destruct (decide (missingFrames t + 1 < maxMissingFrames this)%Z);
    rewrite ?fmap_cons; by rewrite IH.
Qed.

Lemma spawned_from_all rand i dets next draws :
  spawned_from rand ∅ i dets next draws
  = imap (λ k det, {| base := det; id := next + Z.of_nat k; missingFrames := 0;
                      color := getRandomColor (rand (draws + k)%nat);
                      velocity := (0, 0) |}) dets.
Proof.
  revert i next draws. induction dets as [|d dets IH]; intros i next draws; [done|].
  simpl. rewrite bool_decide_eq_false_2 by set_solver. rewrite IH.
  f_equal.
  - f_equal; [lia | by rewrite Nat.add_0_r].
  - apply imap_ext. intros k det _. simpl. f_equal; [lia|].
    do 2 f_equal. lia.
Qed.

(** X19. A tracker without live tracks turns every detection into a new
    track, in the order of the detections: the [k]-th gets the id
    [nextId + k], the colour of the [k]-th random draw, velocity zero and
    [missingFrames] 0, and the counter advances by the number of
    detections. *)
Theorem update_without_tracks (rand : nat → Q) (this : ObjectTracker)
  (detections : list DetectedObject) :
  tracks this = [] →
  update rand this detections
  = {| nextId := nextId this + Z.of_nat (length detections);
       tracks :=
         imap (λ k det, {| base := det; id := nextId this + Z.of_nat k;
                           missingFrames := 0;
                           color := getRandomColor (rand k);
                           velocity := (0, 0) |}) detections;
       maxMissingFrames := maxMissingFrames this;
       iouThreshold := iouThreshold this |}.
Proof.
  intros Ht.
  assert (accepted this detections = []) as Hacc.
  { assert (length (accepted this detections) ≤ 0)%nat as Hlen.
    { etrans; [apply (greedy_length (predicted this) detections),
                 candidates_in_range|].
      unfold predicted. rewrite Ht. simpl. lia. }
    destruct (accepted this detections); [done | simpl in Hlen; lia]. }
  rewrite update_unfold. unfold matched, aged, spawned, predicted.
  rewrite Hacc, Ht. simpl. change (det_indices []) with (∅ : gset nat).
  rewrite spawned_from_all. f_equal. by rewrite length_imap.
Qed.

Lemma update_without_tracks_witness :
  update example_rand (new 2 0.25) [example_det1]
  = {| nextId := 1 + 1;
       tracks := [{| base := example_det1; id := 1 + 0; missingFrames := 0;
                     color := getRandomColor (example_rand 0);
                     velocity := (0, 0) |}];
       maxMissingFrames := 2; iouThreshold := 0.25 |}.
Proof.
  apply (update_without_tracks example_rand (new 2 0.25) [example_det1]).
  reflexivity.
Defined.

End Edges.

(** * The order of the walk *)

Section WalkOrder.

Lemma score_pairs_pushed threshold ts dets :
  StronglySorted pushed_before (score_pairs threshold ts dets).
Proof.
  set (P := λ (i : nat) (ms : list Match),
    StronglySorted pushed_before ms ∧ ∀ m, m ∈ ms → (trackIdx m < i)%nat).
  assert (P (0 + length ts)%nat (score_pairs threshold ts dets)) as [Hs _]; [|done].
  unfold score_pairs, forEach. apply (forEach_from_invariant P).
  - split; [constructor | intros m Hm; inversion Hm].
  - simpl. intros i track ms Hi [Hs Hms].
    set (R := λ (j : nat) (ms : list Match),
      StronglySorted pushed_before ms
      ∧ ∀ m, m ∈ ms →
          (trackIdx m < i)%nat ∨ trackIdx m = i ∧ (detIdx m < j)%nat).
    assert (R (0 + length dets)%nat
              (forEach (score_pair threshold track i) dets ms)) as [Hs' Hms'].
    { unfold forEach. apply (forEach_from_invariant R).
      - split; [done|]. intros m Hm. left. by apply Hms.
      - simpl. intros j det ms' Hj [Hs' Hms']. unfold score_pair.
        destruct (Qle_bool threshold _).
        + split.
          * apply StronglySorted_app_2; [|done | repeat constructor].
            intros a b Ha ->%list_elem_of_singleton. unfold pushed_before. simpl.
            destruct (Hms' a Ha) as [?|[? ?]]; [by left | by right].
          * intros m [Hm| ->%list_elem_of_singleton]%elem_of_app.
            -- destruct (Hms' m Hm) as [?|[? ?]]; auto with lia.
            -- simpl. right. lia.
        + split; [done|]. intros m Hm.
          destruct (Hms' m Hm) as [?|[? ?]]; auto with lia. }
    split; [done|]. intros m Hm.
    destruct (Hms' m Hm) as [?|[? ?]]; lia.
Qed.

Lemma insert_match_walk_order a ms :
  StronglySorted walk_order ms → Forall (pushed_before a) ms →
  StronglySorted walk_order (insert_match a ms).
Proof.
  induction 1 as [|b ms Hs IH Hb]; intros Ha; simpl.
  - repeat constructor.
  - apply Forall_cons in Ha as [Hab Ha].
    destruct (Qle_bool (iou b) (iou a)) eqn:E.
    + apply Qle_bool_iff in E. constructor; [by constructor|].
      assert (walk_order a b) as Hwab.
      { unfold walk_order. destruct (Qlt_le_dec (iou b) (iou a)); [by left|].
        right. split; [lra | done]. }
      constructor; [done|].
      rewrite Forall_forall in Hb, Ha. apply Forall_forall. intros c Hc.
      specialize (Hb c Hc). specialize (Ha c Hc). unfold walk_order in *.
      destruct (Qlt_le_dec (iou c) (iou a)); [by left|].
      right. split; [|done]. destruct Hb as [?|[? _]]; lra.
    + apply Qle_bool_false in E. constructor; [by apply IH|].
      rewrite insert_match_perm. constructor; [|done].
      unfold walk_order. by left.
Qed.

Lemma sort_matches_walk_order ms :
  StronglySorted pushed_before ms → StronglySorted walk_order (sort_matches ms).
Proof.
  induction 1 as [|a ms Hs IH Ha]; simpl; [constructor|].
  apply insert_match_walk_order; [done|]. by rewrite sort_matches_perm.
Qed.

(** X20. Ties are broken by position: the candidate pairs are walked by
    descending IoU, and pairs of equal IoU in the order of their track
    index, then of their detection index.  The first pair of the walk is
    always accepted, so the best pair wins, and among equally good pairs
    the one with the first track and then the first detection. *)
Theorem walk_breaks_ties_by_position (this : ObjectTracker)
  (detections : list DetectedObject) :
  StronglySorted walk_order (candidates this detections)
  ∧ head (accepted this detections) = head (candidates this detections).
Proof.
  split.
  - apply sort_matches_walk_order, score_pairs_pushed.
  - unfold accepted. destruct (candidates this detections) as [|m ms]; [done|].
    cbn [greedy]. by rewrite (proj2 (consumed_false m ∅ ∅)) by set_solver.
Qed.

End WalkOrder.
